(** * webgpu-util: arcball camera and touch-gesture controller

    A shallow embedding of [ArcballCamera] (arcball camera source) and of
    [Controller] (src/controller.js).

    Numbers.  A JavaScript number is embedded as a real number: the
    development reasons about the exact arithmetic the code is written
    against.  Rounding, overflow and NaN are outside the model, so every
    statement that the specification makes "within floating tolerance" is
    proved here as an exact equality. *)

From Stdlib Require Import Reals.Reals Lra Lia List Bool NArith RNsatz.
Import ListNotations.

Open Scope R_scope.

(** ** JavaScript number helpers *)

Module Js.

(** [a > b], [a >= b], [a <= b], [a < b] as the booleans an [if] tests. *)
Definition gtb (a b : R) : bool := if Rgt_dec a b then true else false.
Definition geb (a b : R) : bool := if Rge_dec a b then true else false.
Definition leb (a b : R) : bool := if Rle_dec a b then true else false.
Definition ltb (a b : R) : bool := if Rlt_dec a b then true else false.
Definition eqb (a b : R) : bool := if Req_dec_T a b then true else false.

(** [Math.abs]. *)
Definition abs (a : R) : R := Rabs a.

(** [Math.sign] on a number that is not NaN. *)
Definition sign (a : R) : R :=
  if gtb a 0 then 1 else if ltb a 0 then -1 else 0.

(** [Math.pow(a, 2.0)]. *)
Definition pow2 (a : R) : R := a * a.

End Js.

(** ** The wgpu-matrix functions the two source files call

    The library file (libs/wgpu-matrix/wgpu-matrix.module.js) is imported by
    both sources and is not part of them.  Its vectors, quaternions and
    matrices are flat arrays; the records below name the array slots.  A 4x4
    matrix is stored column by column: slot [4*c + r] holds row [r] of
    column [c], so slots 12, 13, 14 are the translation part. *)

Module Wgpu.

Record vec2 := Vec2 { v2_0 : R; v2_1 : R }.
Record vec3 := Vec3 { v3_0 : R; v3_1 : R; v3_2 : R }.
Record vec4 := Vec4 { v4_0 : R; v4_1 : R; v4_2 : R; v4_3 : R }.

(** A quaternion is the array [x, y, z, w]. *)
Record quat := Quat { q_0 : R; q_1 : R; q_2 : R; q_3 : R }.

Record mat3 := Mat3 {
  n0 : R; n1 : R; n2 : R;
  n3 : R; n4 : R; n5 : R;
  n6 : R; n7 : R; n8 : R }.

Record mat4 := Mat4 {
  e0 : R; e1 : R; e2 : R; e3 : R;
  e4 : R; e5 : R; e6 : R; e7 : R;
  e8 : R; e9 : R; e10 : R; e11 : R;
  e12 : R; e13 : R; e14 : R; e15 : R }.

(** Modelled from the spec: wgpu-matrix [EPSILON], the length under which
    [normalize] returns its fallback value instead of dividing. *)
Definition EPSILON : R := 1 / 100000.

(** Modelled from the spec: wgpu-matrix [vec2.dot], the dot product. *)
Definition vec2_dot (a b : vec2) : R :=
  v2_0 a * v2_0 b + v2_1 a * v2_1 b.

(** Modelled from the spec: wgpu-matrix [vec2.normalize]; the
    "normalized" vector of the spec, with the library's guard that maps a
    vector no longer than [EPSILON] to the zero vector. *)
Definition vec2_normalize (v : vec2) : vec2 :=
  let len := sqrt (v2_0 v * v2_0 v + v2_1 v * v2_1 v) in
  if Js.gtb len EPSILON then Vec2 (v2_0 v / len) (v2_1 v / len)
  else Vec2 0 0.

(** Modelled from the spec: wgpu-matrix [vec2.lerp], [a + t * (b - a)];
    "the normalized average (lerp at 0.5)". *)
Definition vec2_lerp (a b : vec2) (t : R) : vec2 :=
  Vec2 (v2_0 a + t * (v2_0 b - v2_0 a)) (v2_1 a + t * (v2_1 b - v2_1 a)).

(** Modelled from the spec: wgpu-matrix [vec2.len], the length [|v|]. *)
Definition vec2_len (v : vec2) : R := sqrt (vec2_dot v v).

(** Modelled from the spec: wgpu-matrix [vec2.negate]; the "negated delta"
    of the pan round trip. *)
Definition vec2_negate (v : vec2) : vec2 := Vec2 (- v2_0 v) (- v2_1 v).

(** Modelled from the spec: wgpu-matrix [vec3.sub]. *)
Definition vec3_sub (a b : vec3) : vec3 :=
  Vec3 (v3_0 a - v3_0 b) (v3_1 a - v3_1 b) (v3_2 a - v3_2 b).

(** Modelled from the spec: wgpu-matrix [vec3.len]. *)
Definition vec3_len (v : vec3) : R :=
  sqrt (v3_0 v * v3_0 v + v3_1 v * v3_1 v + v3_2 v * v3_2 v).

(** Modelled from the spec: wgpu-matrix [vec3.normalize]. *)
Definition vec3_normalize (v : vec3) : vec3 :=
  let len := vec3_len v in
  if Js.gtb len EPSILON then Vec3 (v3_0 v / len) (v3_1 v / len) (v3_2 v / len)
  else Vec3 0 0 0.

(** Modelled from the spec: wgpu-matrix [vec3.cross]. *)
Definition vec3_cross (a b : vec3) : vec3 :=
  Vec3 (v3_1 a * v3_2 b - v3_2 a * v3_1 b)
       (v3_2 a * v3_0 b - v3_0 a * v3_2 b)
       (v3_0 a * v3_1 b - v3_1 a * v3_0 b).

(** Modelled from the spec: wgpu-matrix [vec4.transformMat4 (v, m)], the
    matrix [m] applied to the column vector [v]. *)
Definition vec4_transformMat4 (v : vec4) (m : mat4) : vec4 :=
  let x := v4_0 v in let y := v4_1 v in
  let z := v4_2 v in let w := v4_3 v in
  Vec4 (e0 m * x + e4 m * y + e8 m * z + e12 m * w)
       (e1 m * x + e5 m * y + e9 m * z + e13 m * w)
       (e2 m * x + e6 m * y + e10 m * z + e14 m * w)
       (e3 m * x + e7 m * y + e11 m * z + e15 m * w).

(** Modelled from the spec: wgpu-matrix [vec4.normalize]; a vector no
    longer than [EPSILON] becomes the zero vector. *)
Definition vec4_normalize (v : vec4) : vec4 :=
  let len := sqrt (v4_0 v * v4_0 v + v4_1 v * v4_1 v
                   + v4_2 v * v4_2 v + v4_3 v * v4_3 v) in
  if Js.gtb len EPSILON
  then Vec4 (v4_0 v / len) (v4_1 v / len) (v4_2 v / len) (v4_3 v / len)
  else Vec4 0 0 0 0.

(** Modelled from the spec: wgpu-matrix [quat.mul (a, b)], the Hamilton
    product [a * b] of quaternions stored as [x, y, z, w]. *)
Definition quat_mul (a b : quat) : quat :=
  let ax := q_0 a in let ay := q_1 a in let az := q_2 a in let aw := q_3 a in
  let bx := q_0 b in let b_y := q_1 b in let bz := q_2 b in let bw := q_3 b in
  Quat (ax * bw + aw * bx + ay * bz - az * b_y)
       (ay * bw + aw * b_y + az * bx - ax * bz)
       (az * bw + aw * bz + ax * b_y - ay * bx)
       (aw * bw - ax * bx - ay * b_y - az * bz).

(** Modelled from the spec: wgpu-matrix [quat.normalize]; a quaternion no
    longer than [EPSILON] becomes the identity quaternion. *)
Definition quat_normalize (q : quat) : quat :=
  let len := sqrt (q_0 q * q_0 q + q_1 q * q_1 q + q_2 q * q_2 q + q_3 q * q_3 q) in
  if Js.gtb len EPSILON
  then Quat (q_0 q / len) (q_1 q / len) (q_2 q / len) (q_3 q / len)
  else Quat 0 0 0 1.

(** Modelled from the spec: wgpu-matrix [mat3.create], nine values column
    by column. *)
Definition mat3_create (v0 v1 v2 v3 v4 v5 v6 v7 v8 : R) : mat3 :=
  Mat3 v0 v1 v2 v3 v4 v5 v6 v7 v8.

(** Modelled from the spec: wgpu-matrix [mat3.transpose]. *)
Definition mat3_transpose (m : mat3) : mat3 :=
  Mat3 (n0 m) (n3 m) (n6 m)
       (n1 m) (n4 m) (n7 m)
       (n2 m) (n5 m) (n8 m).

(** Modelled from the spec: wgpu-matrix [mat4.create ()], the zero
    matrix. *)
Definition mat4_create : mat4 := Mat4 0 0 0 0 0 0 0 0 0 0 0 0 0 0 0 0.

Definition mat4_identity : mat4 := Mat4 1 0 0 0 0 1 0 0 0 0 1 0 0 0 0 1.

(** Modelled from the spec: wgpu-matrix [mat4.translation (v)]; only the
    first three slots of [v] are read. *)
Definition mat4_translation (v0 v1 v2 : R) : mat4 :=
  Mat4 1 0 0 0 0 1 0 0 0 0 1 0 v0 v1 v2 1.

(** Modelled from the spec: wgpu-matrix [mat4.mul (a, b)], the matrix
    product with [a] on the left. *)
Definition mat4_mul (a b : mat4) : mat4 :=
  let a00 := e0 a in let a01 := e1 a in let a02 := e2 a in let a03 := e3 a in
  let a10 := e4 a in let a11 := e5 a in let a12 := e6 a in let a13 := e7 a in
  let a20 := e8 a in let a21 := e9 a in let a22 := e10 a in let a23 := e11 a in
  let a30 := e12 a in let a31 := e13 a in let a32 := e14 a in let a33 := e15 a in
  let b00 := e0 b in let b01 := e1 b in let b02 := e2 b in let b03 := e3 b in
  let b10 := e4 b in let b11 := e5 b in let b12 := e6 b in let b13 := e7 b in
  let b20 := e8 b in let b21 := e9 b in let b22 := e10 b in let b23 := e11 b in
  let b30 := e12 b in let b31 := e13 b in let b32 := e14 b in let b33 := e15 b in
  Mat4 (a00 * b00 + a10 * b01 + a20 * b02 + a30 * b03)
       (a01 * b00 + a11 * b01 + a21 * b02 + a31 * b03)
       (a02 * b00 + a12 * b01 + a22 * b02 + a32 * b03)
       (a03 * b00 + a13 * b01 + a23 * b02 + a33 * b03)
       (a00 * b10 + a10 * b11 + a20 * b12 + a30 * b13)
       (a01 * b10 + a11 * b11 + a21 * b12 + a31 * b13)
       (a02 * b10 + a12 * b11 + a22 * b12 + a32 * b13)
       (a03 * b10 + a13 * b11 + a23 * b12 + a33 * b13)
       (a00 * b20 + a10 * b21 + a20 * b22 + a30 * b23)
       (a01 * b20 + a11 * b21 + a21 * b22 + a31 * b23)
       (a02 * b20 + a12 * b21 + a22 * b22 + a32 * b23)
       (a03 * b20 + a13 * b21 + a23 * b22 + a33 * b23)
       (a00 * b30 + a10 * b31 + a20 * b32 + a30 * b33)
       (a01 * b30 + a11 * b31 + a21 * b32 + a31 * b33)
       (a02 * b30 + a12 * b31 + a22 * b32 + a32 * b33)
       (a03 * b30 + a13 * b31 + a23 * b32 + a33 * b33).

(** Modelled from the spec: wgpu-matrix [mat4.fromQuat], the rotation
    matrix of a quaternion ("rotation-as-matrix"). *)
Definition mat4_fromQuat (q : quat) : mat4 :=
  let x := q_0 q in let y := q_1 q in let z := q_2 q in let w := q_3 q in
  let x2 := x + x in let y2 := y + y in let z2 := z + z in
  let xx := x * x2 in let yx := y * x2 in let yy := y * y2 in
  let zx := z * x2 in let zy := z * y2 in let zz := z * z2 in
  let wx := w * x2 in let wy := w * y2 in let wz := w * z2 in
  Mat4 (1 - yy - zz) (yx + wz) (zx - wy) 0
       (yx - wz) (1 - xx - zz) (zy + wx) 0
       (zx + wy) (zy - wx) (1 - xx - yy) 0
       0 0 0 1.

(** The determinant, as the cofactor expansion [mat4.invert] divides
    by. *)
Definition mat4_det (m : mat4) : R :=
  let m00 := e0 m in let m01 := e1 m in let m02 := e2 m in let m03 := e3 m in
  let m10 := e4 m in let m11 := e5 m in let m12 := e6 m in let m13 := e7 m in
  let m20 := e8 m in let m21 := e9 m in let m22 := e10 m in let m23 := e11 m in
  let m30 := e12 m in let m31 := e13 m in let m32 := e14 m in let m33 := e15 m in
  let tmp0 := m22 * m33 in let tmp1 := m32 * m23 in
  let tmp2 := m12 * m33 in let tmp3 := m32 * m13 in
  let tmp4 := m12 * m23 in let tmp5 := m22 * m13 in
  let tmp6 := m02 * m33 in let tmp7 := m32 * m03 in
  let tmp8 := m02 * m23 in let tmp9 := m22 * m03 in
  let tmp10 := m02 * m13 in let tmp11 := m12 * m03 in
  let t0 := (tmp0 * m11 + tmp3 * m21 + tmp4 * m31)
            - (tmp1 * m11 + tmp2 * m21 + tmp5 * m31) in
  let t1 := (tmp1 * m01 + tmp6 * m21 + tmp9 * m31)
            - (tmp0 * m01 + tmp7 * m21 + tmp8 * m31) in
  let t2 := (tmp2 * m01 + tmp7 * m11 + tmp10 * m31)
            - (tmp3 * m01 + tmp6 * m11 + tmp11 * m31) in
  let t3 := (tmp5 * m01 + tmp8 * m11 + tmp11 * m21)
            - (tmp4 * m01 + tmp9 * m11 + tmp10 * m21) in
  m00 * t0 + m10 * t1 + m20 * t2 + m30 * t3.

(** Modelled from the spec: wgpu-matrix [mat4.invert], the inverse by
    cofactors ("invCamera = camera^-1"). *)
Definition mat4_invert (m : mat4) : mat4 :=
  let m00 := e0 m in let m01 := e1 m in let m02 := e2 m in let m03 := e3 m in
  let m10 := e4 m in let m11 := e5 m in let m12 := e6 m in let m13 := e7 m in
  let m20 := e8 m in let m21 := e9 m in let m22 := e10 m in let m23 := e11 m in
  let m30 := e12 m in let m31 := e13 m in let m32 := e14 m in let m33 := e15 m in
  let tmp0 := m22 * m33 in let tmp1 := m32 * m23 in
  let tmp2 := m12 * m33 in let tmp3 := m32 * m13 in
  let tmp4 := m12 * m23 in let tmp5 := m22 * m13 in
  let tmp6 := m02 * m33 in let tmp7 := m32 * m03 in
  let tmp8 := m02 * m23 in let tmp9 := m22 * m03 in
  let tmp10 := m02 * m13 in let tmp11 := m12 * m03 in
  let tmp12 := m20 * m31 in let tmp13 := m30 * m21 in
  let tmp14 := m10 * m31 in let tmp15 := m30 * m11 in
  let tmp16 := m10 * m21 in let tmp17 := m20 * m11 in
  let tmp18 := m00 * m31 in let tmp19 := m30 * m01 in
  let tmp20 := m00 * m21 in let tmp21 := m20 * m01 in
  let tmp22 := m00 * m11 in let tmp23 := m10 * m01 in
  let t0 := (tmp0 * m11 + tmp3 * m21 + tmp4 * m31)
            - (tmp1 * m11 + tmp2 * m21 + tmp5 * m31) in
  let t1 := (tmp1 * m01 + tmp6 * m21 + tmp9 * m31)
            - (tmp0 * m01 + tmp7 * m21 + tmp8 * m31) in
  let t2 := (tmp2 * m01 + tmp7 * m11 + tmp10 * m31)
            - (tmp3 * m01 + tmp6 * m11 + tmp11 * m31) in
  let t3 := (tmp5 * m01 + tmp8 * m11 + tmp11 * m21)
            - (tmp4 * m01 + tmp9 * m11 + tmp10 * m21) in
  let d := 1 / (m00 * t0 + m10 * t1 + m20 * t2 + m30 * t3) in
  Mat4 (d * t0) (d * t1) (d * t2) (d * t3)
       (d * ((tmp1 * m10 + tmp2 * m20 + tmp5 * m30)
             - (tmp0 * m10 + tmp3 * m20 + tmp4 * m30)))
       (d * ((tmp0 * m00 + tmp7 * m20 + tmp8 * m30)
             - (tmp1 * m00 + tmp6 * m20 + tmp9 * m30)))
       (d * ((tmp3 * m00 + tmp6 * m10 + tmp11 * m30)
             - (tmp2 * m00 + tmp7 * m10 + tmp10 * m30)))
       (d * ((tmp4 * m00 + tmp9 * m10 + tmp10 * m20)
             - (tmp5 * m00 + tmp8 * m10 + tmp11 * m20)))
       (d * ((tmp12 * m13 + tmp15 * m23 + tmp16 * m33)
             - (tmp13 * m13 + tmp14 * m23 + tmp17 * m33)))
       (d * ((tmp13 * m03 + tmp18 * m23 + tmp21 * m33)
             - (tmp12 * m03 + tmp19 * m23 + tmp20 * m33)))
       (d * ((tmp14 * m03 + tmp19 * m13 + tmp22 * m33)
             - (tmp15 * m03 + tmp18 * m13 + tmp23 * m33)))
       (d * ((tmp17 * m03 + tmp20 * m13 + tmp23 * m23)
             - (tmp16 * m03 + tmp21 * m13 + tmp22 * m23)))
       (d * ((tmp14 * m22 + tmp17 * m32 + tmp13 * m12)
             - (tmp16 * m32 + tmp12 * m12 + tmp15 * m22)))
       (d * ((tmp20 * m32 + tmp12 * m02 + tmp19 * m22)
             - (tmp18 * m22 + tmp21 * m32 + tmp13 * m02)))
       (d * ((tmp18 * m12 + tmp23 * m32 + tmp15 * m02)
             - (tmp22 * m32 + tmp14 * m02 + tmp19 * m12)))
       (d * ((tmp22 * m22 + tmp16 * m02 + tmp21 * m12)
             - (tmp20 * m12 + tmp23 * m22 + tmp17 * m02))).

(** [m[14] = v]. *)
Definition set_e14 (m : mat4) (v : R) : mat4 :=
  Mat4 (e0 m) (e1 m) (e2 m) (e3 m) (e4 m) (e5 m) (e6 m) (e7 m)
       (e8 m) (e9 m) (e10 m) (e11 m) (e12 m) (e13 m) v (e15 m).

End Wgpu.

Import Wgpu.

(** ** The arcball camera *)

Module Arcball.

(** The fields of an [ArcballCamera] object. *)
Record ArcballCamera := mkCamera {
  zoomSpeed : R;
  invScreen : vec2;
  centerTranslation : mat4;
  translation : mat4;
  rotation : quat;
  camera : mat4;
  invCamera : mat4 }.

(** [clamp (a, min, max)]. *)
Definition clamp (a min max : R) : R :=
  if Js.ltb a min then min else if Js.gtb a max then max else a.

(** [screenToArcball (p)]. *)
Definition screenToArcball (p : vec2) : quat :=
  let dist := vec2_dot p p in
  if Js.leb dist 1
  then Quat (v2_0 p) (v2_1 p) (sqrt (1 - dist)) 0
  else
    let unitP := vec2_normalize p in
    Quat (v2_0 unitP) (v2_1 unitP) 0 0.

(** [updateCameraMatrix ()]: [camera] first receives
    [rotMat * centerTranslation], then [translation * camera], and
    [invCamera] the inverse of the result. *)
Definition updateCameraMatrix (c : ArcballCamera) : ArcballCamera :=
  let rotMat := mat4_fromQuat (rotation c) in
  let camera1 := mat4_mul rotMat (centerTranslation c) in
  let camera2 := mat4_mul (translation c) camera1 in
  mkCamera (zoomSpeed c) (invScreen c) (centerTranslation c)
           (translation c) (rotation c) camera2 (mat4_invert camera2).

(** [rotate (prevMouse, curMouse)], as the source has it: the first
    coordinate of [mPrev] is computed from [curMouse[0]]. *)
Definition rotate (c : ArcballCamera) (prevMouse curMouse : vec2)
  : ArcballCamera :=
  let mPrev :=
    Vec2 (clamp (v2_0 curMouse * 2 * v2_0 (invScreen c) - 1) (-1) 1)
         (clamp (1 - v2_1 prevMouse * 2 * v2_1 (invScreen c)) (-1) 1) in
  let mCur :=
    Vec2 (clamp (v2_0 curMouse * 2 * v2_0 (invScreen c) - 1) (-1) 1)
         (clamp (1 - v2_1 curMouse * 2 * v2_1 (invScreen c)) (-1) 1) in
  let mPrevBall := screenToArcball mPrev in
  let mCurBall := screenToArcball mCur in
  let rotation1 := quat_mul mPrevBall (rotation c) in
  let rotation2 := quat_mul mCurBall rotation1 in
  updateCameraMatrix
    (mkCamera (zoomSpeed c) (invScreen c) (centerTranslation c)
              (translation c) rotation2 (camera c) (invCamera c)).

(** The rotation the specification describes: both coordinates of each
    normalized point come from the respective argument, and the new
    rotation is [curBall * prevBall * rotation]. *)
Definition rotate_spec (c : ArcballCamera) (prevMouse curMouse : vec2)
  : ArcballCamera :=
  let mPrev :=
    Vec2 (clamp (v2_0 prevMouse * 2 * v2_0 (invScreen c) - 1) (-1) 1)
         (clamp (1 - v2_1 prevMouse * 2 * v2_1 (invScreen c)) (-1) 1) in
  let mCur :=
    Vec2 (clamp (v2_0 curMouse * 2 * v2_0 (invScreen c) - 1) (-1) 1)
         (clamp (1 - v2_1 curMouse * 2 * v2_1 (invScreen c)) (-1) 1) in
  let rotation' :=
    quat_mul (quat_mul (screenToArcball mCur) (screenToArcball mPrev))
             (rotation c) in
  updateCameraMatrix
    (mkCamera (zoomSpeed c) (invScreen c) (centerTranslation c)
              (translation c) rotation' (camera c) (invCamera c)).

(** [zoom (amount)]. *)
Definition zoom (c : ArcballCamera) (amount : R) : ArcballCamera :=
  let t := mat4_translation 0 0 (amount * v2_1 (invScreen c) * zoomSpeed c) in
  let translation1 := mat4_mul t (translation c) in
  let translation2 :=
    if Js.geb (e14 translation1) (-2 / 10)        (* -0.2 *)
    then set_e14 translation1 (-2 / 10)
    else translation1 in
  updateCameraMatrix
    (mkCamera (zoomSpeed c) (invScreen c) (centerTranslation c)
              translation2 (rotation c) (camera c) (invCamera c)).

(** [pan (mouseDelta)]. *)
Definition pan (c : ArcballCamera) (mouseDelta : vec2) : ArcballCamera :=
  let delta :=
    Vec4 (v2_0 mouseDelta * v2_0 (invScreen c) * Js.abs (e14 (translation c)))
         (v2_1 mouseDelta * v2_1 (invScreen c) * Js.abs (e14 (translation c)))
         0 0 in
  let worldDelta := vec4_transformMat4 delta (invCamera c) in
  let t := mat4_translation (v4_0 worldDelta) (v4_1 worldDelta)
                            (v4_2 worldDelta) in
  updateCameraMatrix
    (mkCamera (zoomSpeed c) (invScreen c) (mat4_mul t (centerTranslation c))
              (translation c) (rotation c) (camera c) (invCamera c)).

(** [eyePos ()]. *)
Definition eyePos (c : ArcballCamera) : vec3 :=
  Vec3 (e12 (invCamera c)) (e13 (invCamera c)) (e14 (invCamera c)).

Section Construction.

(** wgpu-matrix [quat.fromMat], the quaternion of a rotation matrix.
    Nothing proved below depends on how it computes, so it is taken as
    given. *)
Variable quat_fromMat : mat3 -> quat.

(** [new ArcballCamera (eye, center, up, zoomSpeed, screenDims)]. *)
Definition constructor (eye center up : vec3) (zoomSpeed0 : R)
           (screenDims : vec2) : ArcballCamera :=
  let vup := vec3_normalize up in
  let zAxis0 := vec3_sub center eye in
  let viewDist := vec3_len zAxis0 in
  let zAxis := vec3_normalize zAxis0 in
  let xAxis := vec3_normalize (vec3_cross zAxis vup) in
  let yAxis1 := vec3_normalize (vec3_cross xAxis zAxis) in
  (* vec3.cross (xAxis, zAxis, yAxis) writes its result into yAxis *)
  let yAxis := vec3_cross xAxis zAxis in
  let xAxis := vec3_normalize xAxis in
  let invScreen0 := Vec2 (1 / v2_0 screenDims) (1 / v2_1 screenDims) in
  let centerTranslation0 :=
    mat4_invert (mat4_translation (v3_0 center) (v3_1 center)
                                  (v3_2 center)) in
  let translation0 := mat4_translation 0 0 (-1 * viewDist) in
  let rotMat :=
    mat3_transpose
      (mat3_create (v3_0 xAxis) (v3_1 xAxis) (v3_2 xAxis)
                   (v3_0 yAxis) (v3_1 yAxis) (v3_2 yAxis)
                   (- v3_0 zAxis) (- v3_1 zAxis) (- v3_2 zAxis)) in
  let rotation0 := quat_normalize (quat_fromMat rotMat) in
  updateCameraMatrix
    (mkCamera zoomSpeed0 invScreen0 centerTranslation0 translation0
              rotation0 mat4_create mat4_create).

End Construction.

(** The operations that mutate a camera after its construction. *)
Inductive operation :=
| Rotate (prevMouse curMouse : vec2)
| Zoom (amount : R)
| Pan (mouseDelta : vec2).

Definition step (c : ArcballCamera) (o : operation) : ArcballCamera :=
  match o with
  | Rotate p q => rotate c p q
  | Zoom a => zoom c a
  | Pan d => pan c d
  end.

Definition run (c : ArcballCamera) (os : list operation) : ArcballCamera :=
  fold_left step os c.

(** ** Predicates used in the statements *)

(** Squared length of a quaternion. *)
Definition quat_lenSq (q : quat) : R :=
  q_0 q * q_0 q + q_1 q * q_1 q + q_2 q * q_2 q + q_3 q * q_3 q.

(** [quat.len (q) = 1]. *)
Definition unit_quat (q : quat) : Prop := sqrt (quat_lenSq q) = 1.

(** A pure translation matrix: identity everywhere but slots 12..14. *)
Definition is_translation (m : mat4) : Prop :=
  m = mat4_translation (e12 m) (e13 m) (e14 m).

(** [camera] is the product the comment in [updateCameraMatrix] names. *)
Definition camera_composed (c : ArcballCamera) : Prop :=
  camera c
  = mat4_mul (translation c)
             (mat4_mul (mat4_fromQuat (rotation c)) (centerTranslation c)).

(** [invCamera] is a right inverse of [camera]. *)
Definition camera_inverted (c : ArcballCamera) : Prop :=
  mat4_mul (camera c) (invCamera c) = mat4_identity.

(** The shape every camera has once constructed: the two translation
    matrices are pure translations, the rotation has length one, and the
    derived matrices are up to date. *)
Record well_formed (c : ArcballCamera) : Prop := {
  wf_translation : is_translation (translation c);
  wf_center : is_translation (centerTranslation c);
  wf_rotation : unit_quat (rotation c);
  wf_camera : camera_composed c;
  wf_invCamera : invCamera c = mat4_invert (camera c) }.

(** The bottom row of [m] is (0, 0, 0, 1). *)
Definition affine (m : mat4) : Prop :=
  e3 m = 0 /\ e7 m = 0 /\ e11 m = 0 /\ e15 m = 1.

(** [m] and [m'] have the same upper-left 3x3 block. *)
Definition same_linear (m m' : mat4) : Prop :=
  e0 m = e0 m' /\ e1 m = e1 m' /\ e2 m = e2 m' /\
  e4 m = e4 m' /\ e5 m = e5 m' /\ e6 m = e6 m' /\
  e8 m = e8 m' /\ e9 m = e9 m' /\ e10 m = e10 m'.

(** The cameras after each call of a sequence of operations. *)
Fixpoint states_after (c : ArcballCamera) (os : list operation)
  : list ArcballCamera :=
  match os with
  | [] => []
  | o :: os' => step c o :: states_after (step c o) os'
  end.

(** What [updateCameraMatrix] leaves behind: [camera] is the product, and
    [invCamera] its inverse whenever [camera] has one. *)
Definition camera_current (c : ArcballCamera) : Prop :=
  camera_composed c /\ (mat4_det (camera c) <> 0 -> camera_inverted c).

(** The displacement [pan] folds into [centerTranslation]. *)
Definition pan_worldDelta (c : ArcballCamera) (mouseDelta : vec2) : vec4 :=
  vec4_transformMat4
    (Vec4 (v2_0 mouseDelta * v2_0 (invScreen c) * Js.abs (e14 (translation c)))
          (v2_1 mouseDelta * v2_1 (invScreen c) * Js.abs (e14 (translation c)))
          0 0)
    (invCamera c).

(** The camera constructed for eye (0, 0, 5), center (0, 0, 0), up
    (0, 1, 0), zoom speed 1 and a surface of 2 by 2 pixels. *)
Definition camera0 : ArcballCamera :=
  updateCameraMatrix
    (mkCamera 1 (Vec2 (1 / 2) (1 / 2)) (mat4_translation 0 0 0)
              (mat4_translation 0 0 (-5)) (Quat 0 0 0 1)
              mat4_create mat4_create).

(** [eyeDir ()]. *)
Definition eyeDir (c : ArcballCamera) : vec3 :=
  let dir := Vec4 0 0 (-1) 0 in
  let dir := vec4_transformMat4 dir (invCamera c) in
  let dir := vec4_normalize dir in
  Vec3 (v4_0 dir) (v4_1 dir) (v4_2 dir).

(** [upDir ()]. *)
Definition upDir (c : ArcballCamera) : vec3 :=
  let dir := Vec4 0 1 0 0 in
  let dir := vec4_transformMat4 dir (invCamera c) in
  let dir := vec4_normalize dir in
  Vec3 (v4_0 dir) (v4_1 dir) (v4_2 dir).

(** The point the camera orbits: [centerTranslation] is the translation
    by its opposite. *)
Definition pivot (c : ArcballCamera) : vec3 :=
  Vec3 (- e12 (centerTranslation c)) (- e13 (centerTranslation c))
       (- e14 (centerTranslation c)).

(** The quaternion with every slot negated; it stands for the same
    rotation. *)
Definition quat_neg (q : quat) : quat :=
  Quat (- q_0 q) (- q_1 q) (- q_2 q) (- q_3 q).

(** Dot product of two 3-vectors. *)
Definition vec3_dot (a b : vec3) : R :=
  v3_0 a * v3_0 b + v3_1 a * v3_1 b + v3_2 a * v3_2 b.

(** The distance [zoom] moves the camera by, in view space, per call. *)
Definition zoom_delta (c : ArcballCamera) (amount : R) : R :=
  amount * v2_1 (invScreen c) * zoomSpeed c.

(** The translation stays on the view axis, behind the pivot. *)
Definition on_view_axis (c : ArcballCamera) : Prop :=
  e12 (translation c) = 0 /\ e13 (translation c) = 0
  /\ e14 (translation c) <= 0.

(** What [eyeDir] and [upDir] share: the view-space direction [a] taken
    through [invCamera] and normalized. *)
Definition world_axis (c : ArcballCamera) (a0 a1 a2 : R) : vec3 :=
  let dir := vec4_normalize
               (vec4_transformMat4 (Vec4 a0 a1 a2 0) (invCamera c)) in
  Vec3 (v4_0 dir) (v4_1 dir) (v4_2 dir).

End Arcball.

(** ** The gesture controller *)

Module Controller.

(** A position [[x, y]]. *)
Definition point := vec2.

(** One entry of [evt.changedTouches]. *)
Record Touch := mkTouch { identifier : N; clientX : R; clientY : R }.

(** A touch event: its [changedTouches] list. *)
Definition TouchEvent := list Touch.

(** What the handlers read from their surroundings:
    [canvas.getBoundingClientRect ()], and whether the identifier [t]
    resolves to an assignable binding outside [onTouchMove].  The method
    declares [t] three times, each time as a [const] local to one block
    (lines 119, 131 and 205); the loop [for (t in this.touches)] of line
    139 is in none of these blocks.  A class body is strict code, so
    assigning to [t] there throws a ReferenceError unless the page
    provides a global of that name. *)
Record Host := mkHost { left : R; top : R; t_resolvable : bool }.

(** The object [this.touches].  Its keys are touch identifiers; a
    [for ... in] loop visits integer keys in ascending order, so the
    object is kept as an association list sorted by key. *)
Definition obj := list (N * point).

(** [k in o]. *)
Fixpoint obj_has (o : obj) (k : N) : bool :=
  match o with
  | [] => false
  | (k', _) :: o' => if N.eqb k k' then true else obj_has o' k
  end.

(** [o[k]], [None] standing for [undefined]. *)
Fixpoint obj_get (o : obj) (k : N) : option point :=
  match o with
  | [] => None
  | (k', v) :: o' => if N.eqb k k' then Some v else obj_get o' k
  end.

(** [o[k] = v]. *)
Fixpoint obj_set (o : obj) (k : N) (v : point) : obj :=
  match o with
  | [] => [(k, v)]
  | (k', v') :: o' =>
      if N.eqb k k' then (k, v) :: o'
      else if N.ltb k k' then (k, v) :: o
      else (k', v') :: obj_set o' k v
  end.

(** [delete o[k]]. *)
Fixpoint obj_delete (o : obj) (k : N) : obj :=
  match o with
  | [] => []
  | (k', v') :: o' =>
      if N.eqb k k' then o' else (k', v') :: obj_delete o' k
  end.

(** The fields of a [Controller].  A callback field is [true] when a
    function is registered and [false] when it is [null]. *)
Record Controller := mkController {
  mousemove : bool;
  press : bool;
  wheel : bool;
  prevMouse : vec2;
  curMouse : vec2;
  touches : obj;
  twoFingerDrag : bool;
  pinch : bool }.

(** A call of a registered callback, with its arguments. *)
Inductive Call :=
| CallMousemove (prev : option point) (cur : point)
| CallPress (cur : point)
| CallWheel (amount : R)
| CallPinch (amount : R)
| CallTwoFingerDrag (dragVector : vec2).

Inductive Error := ReferenceError | TypeError.

(** How a handler ends: normally, or by throwing; in both cases with the
    controller as it stands and the callbacks called so far. *)
Inductive Outcome :=
| Normal (c : Controller) (calls : list Call)
| Thrown (e : Error) (c : Controller) (calls : list Call).

Definition set_touches (c : Controller) (o : obj) : Controller :=
  mkController (mousemove c) (press c) (wheel c) (prevMouse c) (curMouse c)
               o (twoFingerDrag c) (pinch c).

(** [[t.clientX - rect.left, t.clientY - rect.top]]. *)
Definition touchPoint (h : Host) (t : Touch) : point :=
  Vec2 (clientX t - left h) (clientY t - top h).

(** [Controller.pointDist (a, b)]. *)
Definition pointDist (a b : point) : R :=
  let v0 := v2_0 b - v2_0 a in
  let v1 := v2_1 b - v2_1 a in
  sqrt (Js.pow2 v0 + Js.pow2 v1).

(** [constructor ()]. *)
Definition constructor : Controller :=
  mkController false false false (Vec2 0 0) (Vec2 0 0) [] false false.

(** [onMouseWheel (evt)], [evt.deltaY] given. *)
Definition onMouseWheel (c : Controller) (deltaY : R) : Outcome :=
  Normal c (if wheel c then [CallWheel (- deltaY)] else []).

(** [onTouchStart (evt)]. *)
Definition onTouchStart (h : Host) (c : Controller) (evt : TouchEvent)
  : Outcome :=
  let '(o, calls) :=
    fold_left
      (fun (acc : obj * list Call) (t : Touch) =>
         let o := obj_set (fst acc) (identifier t) (touchPoint h t) in
         (o, if Nat.eqb (length evt) 1 && press c
             then snd acc ++ [CallPress (touchPoint h t)]
             else snd acc))
      evt (touches c, []) in
  Normal (set_touches c o) calls.

(** [onTouchEnd (evt)]. *)
Definition onTouchEnd (c : Controller) (evt : TouchEvent) : Outcome :=
  Normal
    (set_touches c
       (fold_left (fun o t => obj_delete o (identifier t)) evt (touches c)))
    [].

(** Lines 184-185 and 192-193: the two threshold tests; [1 / 2] is the
    literal 0.5. *)
Definition pinchTest (pinchMotion0 pinchMotion1 : R) : bool :=
  Js.gtb (Js.abs pinchMotion0) (1 / 2) && Js.gtb (Js.abs pinchMotion1) (1 / 2)
  && negb (Js.eqb (Js.sign pinchMotion0) (Js.sign pinchMotion1)).

Definition panTest (panMotion0 panMotion1 : R) : bool :=
  Js.gtb (Js.abs panMotion0) (1 / 2) && Js.gtb (Js.abs panMotion1) (1 / 2)
  && Js.eqb (Js.sign panMotion0) (Js.sign panMotion1).

(** Lines 154-199 of [onTouchMove]: from the first two old and new
    positions to the callbacks called. *)
Definition classify (c : Controller) (old0 old1 new0 new1 : point)
  : list Call :=
  let motionVectors0 := Vec2 (v2_0 new0 - v2_0 old0) (v2_1 new0 - v2_1 old0) in
  let motionVectors1 := Vec2 (v2_0 new1 - v2_0 old1) (v2_1 new1 - v2_1 old1) in
  let motionDirs0 := vec2_normalize motionVectors0 in
  let motionDirs1 := vec2_normalize motionVectors1 in
  let pinchAxis :=
    vec2_normalize (Vec2 (v2_0 old1 - v2_0 old0) (v2_1 old1 - v2_1 old0)) in
  let panAxis :=
    vec2_normalize (vec2_lerp motionVectors0 motionVectors1 (1 / 2)) in
  let pinchMotion0 := vec2_dot pinchAxis motionDirs0 in
  let pinchMotion1 := vec2_dot pinchAxis motionDirs1 in
  let panMotion0 := vec2_dot panAxis motionDirs0 in
  let panMotion1 := vec2_dot panAxis motionDirs1 in
  if pinch c && pinchTest pinchMotion0 pinchMotion1 then
    let oldDist := pointDist old0 old1 in
    let newDist := pointDist new0 new1 in
    [CallPinch (newDist - oldDist)]
  else if twoFingerDrag c && panTest panMotion0 panMotion1 then
    let panAmount := vec2_lerp motionVectors0 motionVectors1 (1 / 2) in
    [CallTwoFingerDrag (Vec2 (v2_0 panAmount) (- v2_1 panAmount))]
  else [].

(** Lines 203-207: the loop that stores the changed positions. *)
Definition updateTouches (h : Host) (o : obj) (evt : TouchEvent) : obj :=
  fold_left (fun o t => obj_set o (identifier t) (touchPoint h t)) evt o.

(** [onTouchMove (evt)]. *)
Definition onTouchMove (h : Host) (c : Controller) (evt : TouchEvent)
  : Outcome :=
  let numTouches := length (touches c) in
  if Nat.eqb numTouches 1 then
    if mousemove c then
      match evt with
      | [] => Thrown TypeError c []       (* t is undefined: t.identifier *)
      | t :: _ =>
          let prevTouch := obj_get (touches c) (identifier t) in
          let curTouch := touchPoint h t in
          Normal (set_touches c (updateTouches h (touches c) evt))
                 [CallMousemove prevTouch curTouch]
      end
    else Normal (set_touches c (updateTouches h (touches c) evt)) []
  else
    let curTouches0 := updateTouches h [] evt in
    match touches c with
    | _ :: _ =>
        if t_resolvable h then
          (* for (t in this.touches) *)
          let '(curTouches, oldTouches) :=
            fold_left
              (fun (acc : obj * list point) (kv : N * point) =>
                 ((if obj_has (fst acc) (fst kv) then fst acc
                   else obj_set (fst acc) (fst kv) (snd kv)),
                  snd acc ++ [snd kv]))
              (touches c) (curTouches0, []) in
          let newTouches := map snd curTouches in
          match nth_error newTouches 0, nth_error oldTouches 0,
                nth_error newTouches 1, nth_error oldTouches 1 with
          | Some new0, Some old0, Some new1, Some old1 =>
              Normal (set_touches c (updateTouches h (touches c) evt))
                     (classify c old0 old1 new0 new1)
          | _, _, _, _ => Thrown TypeError c []
          end
        else Thrown ReferenceError c []   (* t is not defined *)
    | [] =>
        (* no key to visit; oldTouches stays empty and oldTouches[0][0],
           or newTouches[0][0] before it, reads a slot of undefined *)
        Thrown TypeError c []
    end.

(** The quantities of the classification, named as in the source, for use
    in statements. *)
Definition motionVector (old new : point) : vec2 :=
  Vec2 (v2_0 new - v2_0 old) (v2_1 new - v2_1 old).

Definition pinchAxis (old0 old1 : point) : vec2 :=
  vec2_normalize (Vec2 (v2_0 old1 - v2_0 old0) (v2_1 old1 - v2_1 old0)).

Definition panAxis (old0 old1 new0 new1 : point) : vec2 :=
  vec2_normalize
    (vec2_lerp (motionVector old0 new0) (motionVector old1 new1) (1 / 2)).

(** [pinchMotion[i]] and [panMotion[i]] for the touch that moved from [old]
    to [new]. *)
Definition pinchMotion (old0 old1 old new : point) : R :=
  vec2_dot (pinchAxis old0 old1) (vec2_normalize (motionVector old new)).

Definition panMotion (old0 old1 new0 new1 old new : point) : R :=
  vec2_dot (panAxis old0 old1 new0 new1)
           (vec2_normalize (motionVector old new)).

(** Two fingers at (0, 100) and (100, 100), every callback registered. *)
Definition two_fingers : Controller :=
  mkController true true true (Vec2 0 0) (Vec2 0 0)
               [(0%N, Vec2 0 100); (1%N, Vec2 100 100)] true true.

(** A canvas at the origin of the page; [t] resolves or not. *)
Definition host (t_global : bool) : Host := mkHost 0 0 t_global.

(** The fingers converge to (10, 100) and (90, 100). *)
Definition pinch_move : TouchEvent :=
  [mkTouch 0 10 100; mkTouch 1 90 100].

(** Both fingers move by (+5, +5). *)
Definition drag_move : TouchEvent :=
  [mkTouch 0 5 105; mkTouch 1 105 105].

(** The first finger moves across the axis that joins the two, the second
    stays where it is and is not among the changed touches. *)
Definition ambiguous_move : TouchEvent :=
  [mkTouch 0 0 110].

(** [onMouseMove (evt)], [evt.clientX] and [evt.clientY] given.  The
    callback receives [prevMouse] and [curMouse] as they are when it is
    called; [prevMouse] is overwritten afterwards. *)
Definition onMouseMove (h : Host) (c : Controller) (x y : R) : Outcome :=
  let cur := Vec2 (x - left h) (y - top h) in
  Normal
    (mkController (mousemove c) (press c) (wheel c) cur cur
                  (touches c) (twoFingerDrag c) (pinch c))
    (if mousemove c then [CallMousemove (Some (prevMouse c)) cur] else []).

(** [onMouseDown (evt)]. *)
Definition onMouseDown (h : Host) (c : Controller) (x y : R) : Outcome :=
  let cur := Vec2 (x - left h) (y - top h) in
  Normal
    (mkController (mousemove c) (press c) (wheel c) (prevMouse c) cur
                  (touches c) (twoFingerDrag c) (pinch c))
    (if press c then [CallPress cur] else []).

(** The events [registerForCanvas] listens to. *)
Inductive DomEvent :=
| MouseMoveEvent (clientX clientY : R)
| MouseDownEvent (clientX clientY : R)
| WheelEvent (deltaY : R)
| TouchStartEvent (changedTouches : TouchEvent)
| TouchMoveEvent (changedTouches : TouchEvent)
| TouchCancelEvent (changedTouches : TouchEvent)
| TouchEndEvent (changedTouches : TouchEvent).

(** The handler [registerForCanvas] binds to each event, applied to it:
    one entry [{jsEvent, callback}] of [registeredEvents], called. *)
Definition dispatch (h : Host) (c : Controller) (e : DomEvent) : Outcome :=
  match e with
  | MouseMoveEvent x y => onMouseMove h c x y
  | MouseDownEvent x y => onMouseDown h c x y
  | WheelEvent dy => onMouseWheel c dy
  | TouchStartEvent l => onTouchStart h c l
  | TouchMoveEvent l => onTouchMove h c l
  | TouchCancelEvent l => onTouchEnd c l
  | TouchEndEvent l => onTouchEnd c l
  end.

(** A controller together with its queue [registeredEvents]. *)
Record Queued := mkQueued {
  controller : Controller;
  registeredEvents : list DomEvent }.

(** A listener of [registerForCanvas] firing: the event is pushed. *)
Definition listen (s : Queued) (e : DomEvent) : Queued :=
  mkQueued (controller s) (registeredEvents s ++ [e]).

(** The loop of [processEvents] over the entries that remain; a handler
    that throws ends it.  The registered callbacks themselves are taken to
    return. *)
Fixpoint processLoop (h : Host) (c : Controller) (q : list DomEvent)
         (calls : list Call) : Outcome :=
  match q with
  | [] => Normal c calls
  | e :: q' =>
      match dispatch h c e with
      | Normal c' cs => processLoop h c' q' (calls ++ cs)
      | Thrown err c' cs => Thrown err c' (calls ++ cs)
      end
  end.

(** [processEvents ()]: the queue is emptied by the statement after the
    loop, which an exception skips.  The result is the state left behind,
    the callbacks called, and the error thrown if any. *)
Definition processEvents (h : Host) (s : Queued)
  : Queued * list Call * option Error :=
  match processLoop h (controller s) (registeredEvents s) [] with
  | Normal c' calls => (mkQueued c' [], calls, None)
  | Thrown err c' calls => (mkQueued c' (registeredEvents s), calls, Some err)
  end.

(** The keys of an object in strictly ascending order, hence without
    repetition: the order in which [for ... in] and [Object.keys] list
    integer keys. *)
Fixpoint keys_ascending (o : obj) : Prop :=
  match o with
  | [] => True
  | (k, _) :: o' =>
      match o' with
      | [] => True
      | (k', _) :: _ => (k < k')%N
      end /\ keys_ascending o'
  end.

(** The controller and the calls an outcome carries. *)
Definition outcome_controller (r : Outcome) : Controller :=
  match r with Normal c _ => c | Thrown _ c _ => c end.

Definition outcome_calls (r : Outcome) : list Call :=
  match r with Normal _ calls => calls | Thrown _ _ calls => calls end.

(** The last entry of [changedTouches] with identifier [k], if any. *)
Fixpoint lastTouch (evt : TouchEvent) (k : N) : option Touch :=
  match evt with
  | [] => None
  | t :: evt' =>
      match lastTouch evt' k with
      | Some t' => Some t'
      | None => if N.eqb (identifier t) k then Some t else None
      end
  end.

(** Whether [changedTouches] has an entry with identifier [k]. *)
Definition changed (evt : TouchEvent) (k : N) : bool :=
  existsb (fun t => N.eqb (identifier t) k) evt.

(** Whether an event is a [touchmove], the one event whose handler can
    throw. *)
Definition isTouchMove (e : DomEvent) : bool :=
  match e with TouchMoveEvent _ => true | _ => false end.

End Controller.

(** ** Facts about the number helpers *)

Module JsFacts.

Import Js.

Lemma gtb_true a b : gtb a b = true <-> a > b.
Proof. unfold gtb. destruct (Rgt_dec a b); split; auto; discriminate. Qed.

Lemma gtb_false a b : gtb a b = false <-> a <= b.
Proof.
  unfold gtb. destruct (Rgt_dec a b); split; auto; try discriminate; lra.
Qed.

Lemma geb_true a b : geb a b = true <-> a >= b.
Proof. unfold geb. destruct (Rge_dec a b); split; auto; discriminate. Qed.

Lemma geb_false a b : geb a b = false <-> a < b.
Proof.
  unfold geb. destruct (Rge_dec a b); split; auto; try discriminate; lra.
Qed.

Lemma leb_true a b : leb a b = true <-> a <= b.
Proof. unfold leb. destruct (Rle_dec a b); split; auto; discriminate. Qed.

Lemma leb_false a b : leb a b = false <-> a > b.
Proof.
  unfold leb. destruct (Rle_dec a b); split; auto; try discriminate; lra.
Qed.

Lemma ltb_true a b : ltb a b = true <-> a < b.
Proof. unfold ltb. destruct (Rlt_dec a b); split; auto; discriminate. Qed.

Lemma ltb_false a b : ltb a b = false <-> a >= b.
Proof.
  unfold ltb. destruct (Rlt_dec a b); split; auto; try discriminate; lra.
Qed.

Lemma eqb_true a b : eqb a b = true <-> a = b.
Proof. unfold eqb. destruct (Req_dec_T a b); split; auto; discriminate. Qed.

Lemma eqb_false a b : eqb a b = false <-> a <> b.
Proof.
  unfold eqb. destruct (Req_dec_T a b); split; auto; try discriminate.
  intros H; contradiction.
Qed.

End JsFacts.

(** ** Facts about the matrix library *)

Lemma Mat4_ext (a0 a1 a2 a3 a4 a5 a6 a7 a8 a9 a10 a11 a12 a13 a14 a15
                b0 b1 b2 b3 b4 b5 b6 b7 b8 b9 b10 b11 b12 b13 b14 b15 : R) :
  a0 = b0 -> a1 = b1 -> a2 = b2 -> a3 = b3 ->
  a4 = b4 -> a5 = b5 -> a6 = b6 -> a7 = b7 ->
  a8 = b8 -> a9 = b9 -> a10 = b10 -> a11 = b11 ->
  a12 = b12 -> a13 = b13 -> a14 = b14 -> a15 = b15 ->
  Mat4 a0 a1 a2 a3 a4 a5 a6 a7 a8 a9 a10 a11 a12 a13 a14 a15
  = Mat4 b0 b1 b2 b3 b4 b5 b6 b7 b8 b9 b10 b11 b12 b13 b14 b15.
Proof. intros; subst; reflexivity. Qed.

Ltac mat4_cbv :=
  cbv [mat4_det mat4_mul mat4_invert mat4_identity mat4_translation
       mat4_fromQuat set_e14 vec4_transformMat4
       e0 e1 e2 e3 e4 e5 e6 e7 e8 e9 e10 e11 e12 e13 e14 e15
       q_0 q_1 q_2 q_3 v4_0 v4_1 v4_2 v4_3] in *.

Lemma mat4_mul_invert (m : mat4) :
  mat4_det m <> 0 -> mat4_mul m (mat4_invert m) = mat4_identity.
Proof.
  intros Hd. destruct m as [a0 a1 a2 a3 a4 a5 a6 a7 a8 a9 a10 a11 a12 a13 a14 a15].
  mat4_cbv.
  match type of Hd with
  | ?X <> 0 => generalize (Rinv_l X Hd); unfold Rdiv; rewrite ?Rmult_1_l;
               generalize (/ X)
  end.
  intros d Hdd.
  apply Mat4_ext; first [ ring | rewrite <- Hdd; ring ].
Qed.

(** ** Facts about square roots and unit quaternions *)

Import Arcball.

Lemma sqrt_eq_1 (x : R) : sqrt x = 1 <-> x = 1.
Proof.
  split; intros H.
  - destruct (Rle_lt_dec 0 x) as [Hx | Hx].
    + rewrite <- (sqrt_sqrt x Hx), H. ring.
    + rewrite (sqrt_neg_0 x) in H by lra. lra.
  - subst. apply sqrt_1.
Qed.

Lemma sqrt_gt_1 (x : R) : 1 < x -> 1 < sqrt x.
Proof.
  intros H. rewrite <- sqrt_1 at 1. apply sqrt_lt_1; lra.
Qed.

Lemma quat_lenSq_mul (a b : quat) :
  quat_lenSq (quat_mul a b) = quat_lenSq a * quat_lenSq b.
Proof. destruct a, b. unfold quat_lenSq, quat_mul; simpl. ring. Qed.

Lemma unit_quat_lenSq (q : quat) : unit_quat q <-> quat_lenSq q = 1.
Proof. unfold unit_quat. apply sqrt_eq_1. Qed.

Lemma unit_quat_mul (a b : quat) :
  unit_quat a -> unit_quat b -> unit_quat (quat_mul a b).
Proof.
  rewrite !unit_quat_lenSq, quat_lenSq_mul. intros -> ->. ring.
Qed.

(** Outside the unit disc [vec2.normalize] divides by the length: the guard
    against short vectors does not fire. *)
Lemma vec2_normalize_outside (p : vec2) :
  1 < vec2_dot p p ->
  vec2_normalize p
  = Vec2 (v2_0 p / sqrt (vec2_dot p p)) (v2_1 p / sqrt (vec2_dot p p)).
Proof.
  intros H. unfold vec2_normalize. fold (vec2_dot p p).
  assert (Hs : 1 < sqrt (vec2_dot p p)) by (apply sqrt_gt_1; exact H).
  assert (Hg : Js.gtb (sqrt (vec2_dot p p)) EPSILON = true).
  { apply JsFacts.gtb_true. unfold EPSILON. lra. }
  rewrite Hg. reflexivity.
Qed.

Lemma screenToArcball_inside (p : vec2) :
  vec2_dot p p <= 1 ->
  screenToArcball p = Quat (v2_0 p) (v2_1 p) (sqrt (1 - vec2_dot p p)) 0.
Proof.
  intros H. unfold screenToArcball.
  apply JsFacts.leb_true in H. rewrite H. reflexivity.
Qed.

Lemma screenToArcball_outside (p : vec2) :
  1 < vec2_dot p p ->
  screenToArcball p
  = Quat (v2_0 p / sqrt (vec2_dot p p)) (v2_1 p / sqrt (vec2_dot p p)) 0 0.
Proof.
  intros H. unfold screenToArcball.
  assert (Hl : Js.leb (vec2_dot p p) 1 = false)
    by (apply JsFacts.leb_false; lra).
  rewrite Hl, vec2_normalize_outside by exact H. reflexivity.
Qed.

Lemma screenToArcball_unit (p : vec2) : unit_quat (screenToArcball p).
Proof.
  apply unit_quat_lenSq.
  destruct (Rle_lt_dec (vec2_dot p p) 1) as [H | H].
  - rewrite screenToArcball_inside by exact H.
    unfold quat_lenSq; simpl.
    rewrite sqrt_sqrt by lra. unfold vec2_dot. ring.
  - rewrite screenToArcball_outside by exact H.
    unfold quat_lenSq; simpl.
    assert (Hs : 1 < sqrt (vec2_dot p p)) by (apply sqrt_gt_1; exact H).
    assert (Hd : sqrt (vec2_dot p p) * sqrt (vec2_dot p p) = vec2_dot p p)
      by (apply sqrt_sqrt; lra).
    set (l := sqrt (vec2_dot p p)) in *.
    replace (v2_0 p / l * (v2_0 p / l) + v2_1 p / l * (v2_1 p / l) + 0 * 0 + 0 * 0)
      with (vec2_dot p p / (l * l)) by (unfold vec2_dot; field; lra).
    rewrite Hd. field. lra.
Qed.

Lemma rotate_rotation (c : ArcballCamera) (prevMouse curMouse : vec2) :
  exists a b : vec2,
    rotation (rotate c prevMouse curMouse)
    = quat_mul (screenToArcball b) (quat_mul (screenToArcball a) (rotation c)).
Proof. unfold rotate, updateCameraMatrix; simpl. eauto. Qed.

Lemma rotate_unit (c : ArcballCamera) (prevMouse curMouse : vec2) :
  unit_quat (rotation c) -> unit_quat (rotation (rotate c prevMouse curMouse)).
Proof.
  intros H. destruct (rotate_rotation c prevMouse curMouse) as (a & b & ->).
  auto using unit_quat_mul, screenToArcball_unit.
Qed.

(** ** Facts about affine matrices *)

Lemma is_translation_intro (v0 v1 v2 : R) :
  is_translation (mat4_translation v0 v1 v2).
Proof. reflexivity. Qed.

Lemma is_translation_mul (a b : mat4) :
  is_translation a -> is_translation b -> is_translation (mat4_mul a b).
Proof.
  unfold is_translation. intros -> ->.
  mat4_cbv. apply Mat4_ext; ring.
Qed.

Lemma is_translation_set_e14 (m : mat4) (v : R) :
  is_translation m -> is_translation (set_e14 m v).
Proof. unfold is_translation. intros ->. reflexivity. Qed.

Lemma mat4_invert_translation (v0 v1 v2 : R) :
  mat4_invert (mat4_translation v0 v1 v2) = mat4_translation (- v0) (- v1) (- v2).
Proof. mat4_cbv. apply Mat4_ext; field. Qed.

Lemma mat4_translation_cancel (v0 v1 v2 : R) (m : mat4) :
  mat4_mul (mat4_translation (- v0) (- v1) (- v2))
           (mat4_mul (mat4_translation v0 v1 v2) m) = m.
Proof. destruct m. mat4_cbv. apply Mat4_ext; ring. Qed.

(** The camera matrix of two pure translations around a rotation is affine
    and its 3x3 block is that of the rotation. *)
Lemma camera_product_shape (t c : mat4) (q : quat) :
  is_translation t -> is_translation c ->
  affine (mat4_mul t (mat4_mul (mat4_fromQuat q) c))
  /\ same_linear (mat4_mul t (mat4_mul (mat4_fromQuat q) c)) (mat4_fromQuat q).
Proof.
  unfold is_translation. intros -> ->. destruct q.
  unfold affine, same_linear. mat4_cbv. repeat split; ring.
Qed.

Lemma mat4_det_affine (m : mat4) :
  affine m ->
  mat4_det m
  = e0 m * (e5 m * e10 m - e9 m * e6 m)
    - e4 m * (e1 m * e10 m - e9 m * e2 m)
    + e8 m * (e1 m * e6 m - e5 m * e2 m).
Proof.
  destruct m. unfold affine; simpl. intros (-> & -> & -> & ->).
  mat4_cbv. ring.
Qed.

Lemma mat4_det_same_linear (m m' : mat4) :
  affine m -> affine m' -> same_linear m m' -> mat4_det m = mat4_det m'.
Proof.
  intros Ha Ha' Hl. rewrite !mat4_det_affine by assumption.
  destruct Hl as (-> & -> & -> & -> & -> & -> & -> & -> & ->). reflexivity.
Qed.

(** The determinant of the matrix of a quaternion. *)
Lemma mat4_det_fromQuat (q : quat) :
  mat4_det (mat4_fromQuat q)
  = 1 + 4 * (quat_lenSq q - 1) * (q_0 q * q_0 q + q_1 q * q_1 q + q_2 q * q_2 q).
Proof. destruct q. unfold quat_lenSq. mat4_cbv. ring. Qed.

Lemma affine_fromQuat (q : quat) : affine (mat4_fromQuat q).
Proof. destruct q. unfold affine. mat4_cbv. auto. Qed.

(** The 3x3 block of the inverse of an affine matrix depends on the 3x3
    block of the matrix alone. *)
Lemma mat4_invert_same_linear (m m' : mat4) :
  affine m -> affine m' -> same_linear m m' ->
  same_linear (mat4_invert m) (mat4_invert m').
Proof.
  destruct m, m'. unfold affine, same_linear; simpl.
  intros (-> & -> & -> & ->) (-> & -> & -> & ->)
         (-> & -> & -> & -> & -> & -> & -> & -> & ->).
  repeat split; (apply f_equal2; [ apply f_equal; ring | ring ]).
Qed.

(** ** The camera invariant *)

Lemma updateCameraMatrix_composed (c : ArcballCamera) :
  camera_composed (updateCameraMatrix c).
Proof. reflexivity. Qed.

Lemma updateCameraMatrix_inverted (c : ArcballCamera) :
  mat4_det (camera (updateCameraMatrix c)) <> 0 ->
  camera_inverted (updateCameraMatrix c).
Proof. intros H. unfold camera_inverted. apply mat4_mul_invert. exact H. Qed.

Lemma updateCameraMatrix_well_formed (c : ArcballCamera) :
  is_translation (translation c) -> is_translation (centerTranslation c) ->
  unit_quat (rotation c) -> well_formed (updateCameraMatrix c).
Proof. intros Ht Hc Hr. split; try assumption; reflexivity. Qed.

Lemma quat_normalize_unit (q : quat) : unit_quat (quat_normalize q).
Proof.
  apply unit_quat_lenSq. unfold quat_normalize. fold (quat_lenSq q).
  destruct (Js.gtb (sqrt (quat_lenSq q)) EPSILON) eqn:Hg.
  - apply JsFacts.gtb_true in Hg. unfold EPSILON in Hg.
    assert (Hp : 0 < quat_lenSq q).
    { destruct (Rle_lt_dec (quat_lenSq q) 0) as [Hn | Hn]; [| exact Hn].
      rewrite sqrt_neg_0 in Hg by exact Hn. lra. }
    assert (Hd : sqrt (quat_lenSq q) * sqrt (quat_lenSq q) = quat_lenSq q)
      by (apply sqrt_sqrt; lra).
    set (l := sqrt (quat_lenSq q)) in *.
    unfold quat_lenSq at 1; simpl.
    replace (q_0 q / l * (q_0 q / l) + q_1 q / l * (q_1 q / l)
             + q_2 q / l * (q_2 q / l) + q_3 q / l * (q_3 q / l))
      with (quat_lenSq q / (l * l)) by (unfold quat_lenSq; field; lra).
    rewrite Hd. field. lra.
  - unfold quat_lenSq; simpl. ring.
Qed.

Lemma constructor_well_formed (fromMat : mat3 -> quat) (eye center up : vec3)
      (zoomSpeed0 : R) (screenDims : vec2) :
  well_formed (constructor fromMat eye center up zoomSpeed0 screenDims).
Proof.
  unfold constructor. apply updateCameraMatrix_well_formed; simpl.
  - apply is_translation_intro.
  - rewrite mat4_invert_translation. apply is_translation_intro.
  - apply quat_normalize_unit.
Qed.

Lemma rotate_well_formed (c : ArcballCamera) (prevMouse curMouse : vec2) :
  well_formed c -> well_formed (rotate c prevMouse curMouse).
Proof.
  intros [Ht Hc Hr _ _].
  pose proof (rotate_unit c prevMouse curMouse Hr) as Hu.
  unfold rotate in *. apply updateCameraMatrix_well_formed; simpl; assumption.
Qed.

Lemma zoom_well_formed (c : ArcballCamera) (amount : R) :
  well_formed c -> well_formed (zoom c amount).
Proof.
  intros [Ht Hc Hr _ _]. unfold zoom.
  apply updateCameraMatrix_well_formed; simpl; try assumption.
  assert (H1 : is_translation
                 (mat4_mul (mat4_translation 0 0
                              (amount * v2_1 (invScreen c) * zoomSpeed c))
                           (translation c)))
    by (apply is_translation_mul; [apply is_translation_intro | exact Ht]).
  destruct (Js.geb _ _); [apply is_translation_set_e14 |]; exact H1.
Qed.

Lemma pan_well_formed (c : ArcballCamera) (mouseDelta : vec2) :
  well_formed c -> well_formed (pan c mouseDelta).
Proof.
  intros [Ht Hc Hr _ _]. unfold pan.
  apply updateCameraMatrix_well_formed; simpl; try assumption.
  apply is_translation_mul; [apply is_translation_intro | exact Hc].
Qed.

Lemma step_well_formed (c : ArcballCamera) (o : operation) :
  well_formed c -> well_formed (step c o).
Proof.
  destruct o; simpl;
    auto using rotate_well_formed, zoom_well_formed, pan_well_formed.
Qed.

(** Every camera reached from a constructed one is well formed. *)
Lemma run_well_formed (os : list operation) (c : ArcballCamera) :
  well_formed c -> well_formed (run c os).
Proof.
  revert c. induction os as [| o os IH]; intros c H; simpl.
  - exact H.
  - apply IH, step_well_formed, H.
Qed.

(** A well-formed camera matrix has determinant one, so [mat4.invert] never
    divides by zero on it. *)
Lemma well_formed_det (c : ArcballCamera) :
  well_formed c -> mat4_det (camera c) = 1.
Proof.
  intros [Ht Hc Hr Hcam _]. rewrite Hcam.
  destruct (camera_product_shape _ _ (rotation c) Ht Hc) as [Ha Hl].
  rewrite (mat4_det_same_linear _ _ Ha (affine_fromQuat _) Hl).
  rewrite mat4_det_fromQuat.
  apply unit_quat_lenSq in Hr. rewrite Hr. ring.
Qed.

(** ** The sample camera *)

Lemma camera0_well_formed : well_formed camera0.
Proof.
  unfold camera0. apply updateCameraMatrix_well_formed; simpl.
  - apply is_translation_intro.
  - apply is_translation_intro.
  - apply unit_quat_lenSq. unfold quat_lenSq; simpl. ring.
Qed.

(** ** Zoom *)

Lemma zoom_depth (c : ArcballCamera) (amount : R) :
  e14 (translation (zoom c amount)) <= -2 / 10.
Proof.
  unfold zoom, updateCameraMatrix; simpl.
  destruct (Js.geb _ _) eqn:Hg.
  - simpl. lra.
  - apply JsFacts.geb_false in Hg. simpl in *. lra.
Qed.


(** C10: [zoom] leaves [rotation], [centerTranslation], [zoomSpeed] and
    [invScreen] as they were, and [pan] leaves [rotation], [translation],
    [zoomSpeed] and [invScreen] as they were. *)
Theorem zoom_pan_frame (c : ArcballCamera) (amount : R) (mouseDelta : vec2) :
  (rotation (zoom c amount) = rotation c
   /\ centerTranslation (zoom c amount) = centerTranslation c
   /\ zoomSpeed (zoom c amount) = zoomSpeed c
   /\ invScreen (zoom c amount) = invScreen c)
  /\ (rotation (pan c mouseDelta) = rotation c
      /\ translation (pan c mouseDelta) = translation c
      /\ zoomSpeed (pan c mouseDelta) = zoomSpeed c
      /\ invScreen (pan c mouseDelta) = invScreen c).
Proof. repeat split. Qed.

(** ** Rotation *)

(** C5: from a camera whose rotation has length one, the rotation has
    length one after each call of any sequence of [rotate] calls. *)
Theorem rotate_keeps_unit_rotation
        (c : ArcballCamera) (moves : list (vec2 * vec2)) :
  unit_quat (rotation c) ->
  Forall (fun s => unit_quat (rotation s))
         (states_after c (map (fun m => Rotate (fst m) (snd m)) moves)).
Proof.
  revert c. induction moves as [| m moves IH]; intros c H; simpl.
  - constructor.
  - constructor.
    + apply rotate_unit, H.
    + apply IH, rotate_unit, H.
Qed.

Lemma rotate_keeps_unit_rotation_witness :
  Forall (fun s => unit_quat (rotation s))
         (states_after camera0
            (map (fun m => Rotate (fst m) (snd m))
                 [(Vec2 0 1, Vec2 1 1); (Vec2 1 1, Vec2 2 0)])).
Proof.
  apply (rotate_keeps_unit_rotation camera0).
  apply unit_quat_lenSq. unfold quat_lenSq; simpl. ring.
Defined.

(** ** screenToArcball *)

Lemma vec2_len_gt_1 (p : vec2) : vec2_len p > 1 -> 1 < vec2_dot p p.
Proof.
  unfold vec2_len. intros H.
  destruct (Rle_lt_dec (vec2_dot p p) 1) as [Hle | Hlt]; [| exact Hlt].
  exfalso.
  destruct (Rle_lt_dec 0 (vec2_dot p p)) as [H0 | H0].
  - assert (Hs : sqrt (vec2_dot p p) <= sqrt 1) by (apply sqrt_le_1; lra).
    rewrite sqrt_1 in Hs. lra.
  - rewrite sqrt_neg_0 in H by lra. lra.
Qed.

(** C6: [screenToArcball] returns [(p.x, p.y, sqrt (1 - |p|^2), 0)] when
    [|p|^2 <= 1], returns [(u.x, u.y, 0, 0)] with [u = p / |p|] when
    [|p| > 1], and maps (0, 0) to (0, 0, 1, 0).  Being a function of its
    argument alone, it is pure. *)
Theorem screenToArcball_cases :
  (forall p : vec2,
      vec2_dot p p <= 1 ->
      screenToArcball p
      = Quat (v2_0 p) (v2_1 p) (sqrt (1 - vec2_dot p p)) 0)
  /\ (forall p : vec2,
         vec2_len p > 1 ->
         screenToArcball p
         = Quat (v2_0 p / vec2_len p) (v2_1 p / vec2_len p) 0 0)
  /\ screenToArcball (Vec2 0 0) = Quat 0 0 1 0.
Proof.
  split; [| split].
  - apply screenToArcball_inside.
  - intros p H. apply screenToArcball_outside, vec2_len_gt_1, H.
  - rewrite screenToArcball_inside by (unfold vec2_dot; simpl; lra).
    unfold vec2_dot; simpl.
    replace (1 - (0 * 0 + 0 * 0)) with 1 by ring.
    rewrite sqrt_1. reflexivity.
Qed.

Lemma vec2_len_3_4 : vec2_len (Vec2 3 4) = 5.
Proof.
  unfold vec2_len, vec2_dot; simpl.
  replace (3 * 3 + 4 * 4) with (5 * 5) by ring.
  apply sqrt_square; lra.
Qed.

Lemma screenToArcball_cases_witness :
  screenToArcball (Vec2 (1 / 2) 0)
  = Quat (1 / 2) 0 (sqrt (1 - vec2_dot (Vec2 (1 / 2) 0) (Vec2 (1 / 2) 0))) 0
  /\ screenToArcball (Vec2 3 4)
     = Quat (3 / vec2_len (Vec2 3 4)) (4 / vec2_len (Vec2 3 4)) 0 0.
Proof.
  split.
  - apply (proj1 screenToArcball_cases (Vec2 (1 / 2) 0)).
    unfold vec2_dot; simpl. lra.
  - apply (proj1 (proj2 screenToArcball_cases) (Vec2 3 4)).
    rewrite vec2_len_3_4. lra.
Defined.

(** ** The camera matrix and its inverse *)

Lemma updateCameraMatrix_current (c : ArcballCamera) :
  camera_current (updateCameraMatrix c).
Proof.
  split.
  - apply updateCameraMatrix_composed.
  - apply updateCameraMatrix_inverted.
Qed.

Lemma step_current (c : ArcballCamera) (o : operation) :
  camera_current (step c o).
Proof. destruct o; apply updateCameraMatrix_current. Qed.

(** On a well-formed camera the inverse is exact without any side
    condition. *)
Lemma well_formed_inverted (c : ArcballCamera) :
  well_formed c -> camera_inverted c.
Proof.
  intros H. unfold camera_inverted. rewrite (wf_invCamera c H).
  apply mat4_mul_invert. rewrite (well_formed_det c H). lra.
Qed.

(** C4: after construction and after each of [rotate], [zoom] and [pan],
    [camera] is [translation * rotation-as-matrix * centerTranslation], and
    [camera * invCamera] is the identity matrix provided [camera] is
    invertible (its determinant is not zero). *)
Theorem camera_matrix_after_every_operation (fromMat : mat3 -> quat) :
  (forall (eye center up : vec3) (zoomSpeed0 : R) (screenDims : vec2),
      let c' := constructor fromMat eye center up zoomSpeed0 screenDims in
      camera c'
      = mat4_mul (translation c')
                 (mat4_mul (mat4_fromQuat (rotation c')) (centerTranslation c'))
      /\ (mat4_det (camera c') <> 0 ->
          mat4_mul (camera c') (invCamera c') = mat4_identity))
  /\ (forall (c : ArcballCamera) (o : operation),
         let c' := step c o in
         camera c'
         = mat4_mul (translation c')
                    (mat4_mul (mat4_fromQuat (rotation c'))
                              (centerTranslation c'))
         /\ (mat4_det (camera c') <> 0 ->
             mat4_mul (camera c') (invCamera c') = mat4_identity)).
Proof.
  split.
  - intros. apply updateCameraMatrix_current.
  - intros. apply step_current.
Qed.

Lemma camera_matrix_after_every_operation_witness :
  camera (zoom camera0 1)
  = mat4_mul (translation (zoom camera0 1))
             (mat4_mul (mat4_fromQuat (rotation (zoom camera0 1)))
                       (centerTranslation (zoom camera0 1)))
  /\ mat4_mul (camera (zoom camera0 1)) (invCamera (zoom camera0 1))
     = mat4_identity.
Proof.
  destruct (proj2 (camera_matrix_after_every_operation (fun _ => Quat 0 0 0 1))
                  camera0 (Zoom 1)) as [Hc Hi].
  split.
  - exact Hc.
  - apply Hi.
    change (step camera0 (Zoom 1)) with (zoom camera0 1).
    rewrite (well_formed_det _ (zoom_well_formed camera0 1 camera0_well_formed)).
    lra.
Defined.

(** ** Pan *)

Lemma pan_unfold (c : ArcballCamera) (d : vec2) :
  pan c d
  = updateCameraMatrix
      (mkCamera (zoomSpeed c) (invScreen c)
                (mat4_mul (mat4_translation (v4_0 (pan_worldDelta c d))
                                            (v4_1 (pan_worldDelta c d))
                                            (v4_2 (pan_worldDelta c d)))
                          (centerTranslation c))
                (translation c) (rotation c) (camera c) (invCamera c)).
Proof. reflexivity. Qed.

(** The world-space displacement depends on [invCamera] through its 3x3
    block only, and is odd in the pixel delta. *)
Lemma pan_worldDelta_negate (c c' : ArcballCamera) (d : vec2) :
  invScreen c' = invScreen c -> translation c' = translation c ->
  same_linear (invCamera c') (invCamera c) ->
  v4_0 (pan_worldDelta c' (vec2_negate d)) = - v4_0 (pan_worldDelta c d)
  /\ v4_1 (pan_worldDelta c' (vec2_negate d)) = - v4_1 (pan_worldDelta c d)
  /\ v4_2 (pan_worldDelta c' (vec2_negate d)) = - v4_2 (pan_worldDelta c d).
Proof.
  intros Hs Ht (H0 & H1 & H2 & H4 & H5 & H6 & _).
  unfold pan_worldDelta, vec4_transformMat4, vec2_negate; simpl.
  rewrite Hs, Ht, H0, H1, H2, H4, H5, H6.
  repeat split; ring.
Qed.

Lemma same_linear_sym (m m' : mat4) : same_linear m m' -> same_linear m' m.
Proof. unfold same_linear. intuition congruence. Qed.

Lemma same_linear_trans (m1 m2 m3 : mat4) :
  same_linear m1 m2 -> same_linear m2 m3 -> same_linear m1 m3.
Proof. unfold same_linear. intuition congruence. Qed.

(** Panning moves the pivot and leaves the 3x3 block of [invCamera] as it
    was. *)
Lemma pan_invCamera_linear (c : ArcballCamera) (d : vec2) :
  well_formed c -> same_linear (invCamera (pan c d)) (invCamera c).
Proof.
  intros H. pose proof (pan_well_formed c d H) as H'.
  rewrite (wf_invCamera _ H), (wf_invCamera _ H').
  rewrite (wf_camera _ H), (wf_camera _ H').
  destruct (camera_product_shape _ _ (rotation c)
              (wf_translation _ H) (wf_center _ H)) as [Ha Hl].
  destruct (camera_product_shape _ _ (rotation (pan c d))
              (wf_translation _ H') (wf_center _ H')) as [Ha' Hl'].
  apply mat4_invert_same_linear; try assumption.
  eapply same_linear_trans; [exact Hl' |].
  apply same_linear_sym. exact Hl.
Qed.

Lemma pan_negate_centerTranslation (c : ArcballCamera) (d : vec2) :
  well_formed c ->
  centerTranslation (pan (pan c d) (vec2_negate d)) = centerTranslation c.
Proof.
  intros H.
  destruct (pan_worldDelta_negate c (pan c d) d eq_refl eq_refl
              (pan_invCamera_linear c d H)) as (E0 & E1 & E2).
  rewrite (pan_unfold (pan c d)).
  unfold updateCameraMatrix at 1. cbn [centerTranslation].
  rewrite E0, E1, E2.
  replace (centerTranslation (pan c d))
    with (mat4_mul (mat4_translation (v4_0 (pan_worldDelta c d))
                                     (v4_1 (pan_worldDelta c d))
                                     (v4_2 (pan_worldDelta c d)))
                   (centerTranslation c))
    by reflexivity.
  apply mat4_translation_cancel.
Qed.

(** Recomputing the derived matrices of a well-formed camera changes
    nothing. *)
Lemma updateCameraMatrix_id (c : ArcballCamera) (cam icam : mat4) :
  well_formed c ->
  updateCameraMatrix
    (mkCamera (zoomSpeed c) (invScreen c) (centerTranslation c)
              (translation c) (rotation c) cam icam) = c.
Proof.
  intros H. unfold updateCameraMatrix; cbn [translation rotation
    centerTranslation zoomSpeed invScreen].
  pose proof (wf_camera _ H) as Hcam. unfold camera_composed in Hcam.
  rewrite <- Hcam, <- (wf_invCamera _ H).
  destruct c; reflexivity.
Qed.

(** The round trip on any well-formed camera. *)
Lemma pan_round_trip_well_formed (c : ArcballCamera) (d : vec2) :
  well_formed c -> pan (pan c d) (vec2_negate d) = c.
Proof.
  intros H.
  pose proof (pan_negate_centerTranslation c d H) as Hc.
  transitivity
    (updateCameraMatrix
       (mkCamera (zoomSpeed c) (invScreen c)
                 (centerTranslation (pan (pan c d) (vec2_negate d)))
                 (translation c) (rotation c)
                 (camera (pan c d)) (invCamera (pan c d)))).
  - reflexivity.
  - rewrite Hc. apply updateCameraMatrix_id, H.
Qed.

(** C7: on every camera state, that is on the camera the constructor
    returns for any arguments after any sequence of [rotate], [zoom] and
    [pan] calls, [pan (d)] followed by [pan (-d)] returns
    [centerTranslation] to its value before the first call; [translation]
    and [rotation] are not touched, and the whole camera is the one the
    round trip started from. *)
Theorem pan_round_trip
        (fromMat : mat3 -> quat) (eye center up : vec3) (zoomSpeed0 : R)
        (screenDims : vec2) (os : list operation) (d : vec2) :
  let c := run (constructor fromMat eye center up zoomSpeed0 screenDims) os in
  centerTranslation (pan (pan c d) (vec2_negate d)) = centerTranslation c
  /\ translation (pan c d) = translation c
  /\ rotation (pan c d) = rotation c
  /\ translation (pan (pan c d) (vec2_negate d)) = translation c
  /\ rotation (pan (pan c d) (vec2_negate d)) = rotation c
  /\ pan (pan c d) (vec2_negate d) = c.
Proof.
  intros c.
  assert (H : well_formed c)
    by (apply run_well_formed, constructor_well_formed).
  split; [apply pan_negate_centerTranslation, H |].
  repeat (split; [reflexivity |]).
  apply pan_round_trip_well_formed, H.
Qed.

(** The round trip on the sample camera, for the delta (3, -4). *)
Lemma pan_round_trip_camera0 :
  pan (pan camera0 (Vec2 3 (-4))) (vec2_negate (Vec2 3 (-4))) = camera0.
Proof. apply pan_round_trip_well_formed, camera0_well_formed. Qed.

(** ** What [rotate] computes *)

Lemma quat_mul_assoc (a b c : quat) :
  quat_mul a (quat_mul b c) = quat_mul (quat_mul a b) c.
Proof. destruct a, b, c. unfold quat_mul; simpl. f_equal; ring. Qed.

(** [rotate] never reads [prevMouse[0]]. *)
Lemma rotate_ignores_prev_x (c : ArcballCamera) (x x' y : R) (curMouse : vec2) :
  rotate c (Vec2 x y) curMouse = rotate c (Vec2 x' y) curMouse.
Proof. reflexivity. Qed.

(** [rotate] is the rotation of the specification applied to the point
    [(curMouse[0], prevMouse[1])] in place of [prevMouse]. *)
Lemma rotate_as_spec (c : ArcballCamera) (prevMouse curMouse : vec2) :
  rotate c prevMouse curMouse
  = rotate_spec c (Vec2 (v2_0 curMouse) (v2_1 prevMouse)) curMouse.
Proof.
  unfold rotate, rotate_spec. cbn [v2_0 v2_1].
  rewrite quat_mul_assoc. reflexivity.
Qed.

Lemma clamp_inside (a : R) : -1 <= a <= 1 -> clamp a (-1) 1 = a.
Proof.
  intros H. unfold clamp.
  assert (H1 : Js.ltb a (-1) = false) by (apply JsFacts.ltb_false; lra).
  assert (H2 : Js.gtb a 1 = false) by (apply JsFacts.gtb_false; lra).
  rewrite H1, H2. reflexivity.
Qed.

Lemma screenToArcball_origin : screenToArcball (Vec2 0 0) = Quat 0 0 1 0.
Proof.
  rewrite screenToArcball_inside by (unfold vec2_dot; simpl; lra).
  unfold vec2_dot; simpl.
  replace (1 - (0 * 0 + 0 * 0)) with 1 by ring.
  rewrite sqrt_1. reflexivity.
Qed.

Lemma screenToArcball_left : screenToArcball (Vec2 (-1) 0) = Quat (-1) 0 0 0.
Proof.
  rewrite screenToArcball_inside by (unfold vec2_dot; simpl; lra).
  unfold vec2_dot; simpl.
  replace (1 - (-1 * -1 + 0 * 0)) with 0 by ring.
  rewrite sqrt_0. reflexivity.
Qed.

(** C1: on the camera [camera0] (identity rotation, 2 by 2 pixels), with
    [prevMouse = (0, 1)] and [curMouse = (1, 1)], [rotate] ends with the
    rotation (0, 0, 0, -1), whereas mapping [prevMouse] to
    ((prevMouse.x * 2 / width) - 1, 1 - (prevMouse.y * 2 / height)) as the
    claim states ends with (0, -1, 0, 0): the source computes the first
    coordinate of [mPrev] from [curMouse]. *)
Theorem rotate_prev_point_uses_curMouse_x :
  rotation (rotate camera0 (Vec2 0 1) (Vec2 1 1)) = Quat 0 0 0 (-1)
  /\ rotation (rotate_spec camera0 (Vec2 0 1) (Vec2 1 1)) = Quat 0 (-1) 0 0
  /\ rotation (rotate camera0 (Vec2 0 1) (Vec2 1 1))
     <> rotation (rotate_spec camera0 (Vec2 0 1) (Vec2 1 1)).
Proof.
  assert (E1 : clamp (1 * 2 * (1 / 2) - 1) (-1) 1 = 0)
    by (rewrite clamp_inside; lra).
  assert (E2 : clamp (1 - 1 * 2 * (1 / 2)) (-1) 1 = 0)
    by (rewrite clamp_inside; lra).
  assert (E3 : clamp (0 * 2 * (1 / 2) - 1) (-1) 1 = -1)
    by (rewrite clamp_inside; lra).
  assert (Hcode : rotation (rotate camera0 (Vec2 0 1) (Vec2 1 1))
                  = Quat 0 0 0 (-1)).
  { unfold rotate, camera0, updateCameraMatrix.
    cbn [rotation invScreen v2_0 v2_1].
    rewrite E1, E2, screenToArcball_origin.
    unfold quat_mul; cbn [q_0 q_1 q_2 q_3]. f_equal; ring. }
  assert (Hspec : rotation (rotate_spec camera0 (Vec2 0 1) (Vec2 1 1))
                  = Quat 0 (-1) 0 0).
  { unfold rotate_spec, camera0, updateCameraMatrix.
    cbn [rotation invScreen v2_0 v2_1].
    rewrite E1, E2, E3, screenToArcball_origin, screenToArcball_left.
    unfold quat_mul; cbn [q_0 q_1 q_2 q_3]. f_equal; ring. }
  split; [exact Hcode |]. split; [exact Hspec |].
  rewrite Hcode, Hspec. intros E.
  apply (f_equal q_1) in E. simpl in E. lra.
Qed.

(** [camera0] is what the constructor returns for its arguments, whenever
    [quat.fromMat] maps the identity matrix to the identity quaternion. *)
Lemma constructor_camera0 (fromMat : mat3 -> quat) :
  fromMat (Mat3 1 0 0 0 1 0 0 0 1) = Quat 0 0 0 1 ->
  constructor fromMat (Vec3 0 0 5) (Vec3 0 0 0) (Vec3 0 1 0) 1 (Vec2 2 2)
  = camera0.
Proof.
  intros Hf.
  assert (S1 : sqrt (0 * 0 + 1 * 1 + 0 * 0) = 1)
    by (replace (0 * 0 + 1 * 1 + 0 * 0) with 1 by ring; apply sqrt_1).
  assert (S5 : sqrt ((0 - 0) * (0 - 0) + (0 - 0) * (0 - 0) + (0 - 5) * (0 - 5)) = 5).
  { replace ((0 - 0) * (0 - 0) + (0 - 0) * (0 - 0) + (0 - 5) * (0 - 5))
      with (5 * 5) by ring.
    apply sqrt_square; lra. }
  assert (G1 : Js.gtb 1 EPSILON = true)
    by (apply JsFacts.gtb_true; unfold EPSILON; lra).
  assert (G5 : Js.gtb 5 EPSILON = true)
    by (apply JsFacts.gtb_true; unfold EPSILON; lra).
  assert (Up : vec3_normalize (Vec3 0 1 0) = Vec3 0 1 0).
  { unfold vec3_normalize, vec3_len; cbn [v3_0 v3_1 v3_2].
    rewrite S1, G1. f_equal; field. }
  assert (Z : vec3_normalize (vec3_sub (Vec3 0 0 0) (Vec3 0 0 5)) = Vec3 0 0 (-1)).
  { unfold vec3_normalize, vec3_len, vec3_sub; cbn [v3_0 v3_1 v3_2].
    rewrite S5, G5. f_equal; field. }
  assert (X : vec3_cross (Vec3 0 0 (-1)) (Vec3 0 1 0) = Vec3 1 0 0)
    by (unfold vec3_cross; cbn [v3_0 v3_1 v3_2]; f_equal; ring).
  assert (X1 : vec3_normalize (Vec3 1 0 0) = Vec3 1 0 0).
  { unfold vec3_normalize, vec3_len; cbn [v3_0 v3_1 v3_2].
    replace (1 * 1 + 0 * 0 + 0 * 0) with 1 by ring.
    rewrite sqrt_1, G1. f_equal; field. }
  assert (Y : vec3_cross (Vec3 1 0 0) (Vec3 0 0 (-1)) = Vec3 0 1 0)
    by (unfold vec3_cross; cbn [v3_0 v3_1 v3_2]; f_equal; ring).
  assert (Q : quat_normalize (Quat 0 0 0 1) = Quat 0 0 0 1).
  { unfold quat_normalize; cbn [q_0 q_1 q_2 q_3].
    replace (0 * 0 + 0 * 0 + 0 * 0 + 1 * 1) with 1 by ring.
    rewrite sqrt_1, G1. f_equal; field. }
  unfold constructor, camera0.
  assert (VD : vec3_len (vec3_sub (Vec3 0 0 0) (Vec3 0 0 5)) = 5)
    by (unfold vec3_len, vec3_sub; cbn [v3_0 v3_1 v3_2]; exact S5).
  rewrite Up, Z, X, X1, Y, X1, VD.
  unfold mat3_create, mat3_transpose; cbn [n0 n1 n2 n3 n4 n5 n6 n7 n8 v3_0 v3_1 v3_2 v2_0 v2_1].
  replace (- 0) with 0 by ring. replace (- -1) with 1 by ring.
  rewrite Hf, Q, mat4_invert_translation.
  replace (- 0) with 0 by ring. replace (-1 * 5) with (-5) by ring.
  reflexivity.
Qed.

(** ** The gesture controller *)

Import Controller.

Lemma Rabs_gt_half_sign (a : R) :
  Rabs a > 1 / 2 -> (a > 1 / 2 /\ Js.sign a = 1) \/ (a < - (1 / 2) /\ Js.sign a = -1).
Proof.
  intros H. unfold Js.sign.
  destruct (Rle_lt_dec 0 a) as [Ha | Ha].
  - rewrite Rabs_right in H by lra. left. split; [exact H |].
    assert (E : Js.gtb a 0 = true) by (apply JsFacts.gtb_true; lra).
    rewrite E. reflexivity.
  - rewrite Rabs_left in H by lra. right. split; [lra |].
    assert (E1 : Js.gtb a 0 = false) by (apply JsFacts.gtb_false; lra).
    assert (E2 : Js.ltb a 0 = true) by (apply JsFacts.ltb_true; lra).
    rewrite E1, E2. reflexivity.
Qed.

(** The test of lines 184-185: both alignments above 0.5 in magnitude, of
    opposite signs. *)
Lemma pinchTest_true (a b : R) :
  pinchTest a b = true <-> Rabs a > 1 / 2 /\ Rabs b > 1 / 2 /\ a * b < 0.
Proof.
  unfold pinchTest, Js.abs. rewrite !andb_true_iff, negb_true_iff.
  rewrite !JsFacts.gtb_true, JsFacts.eqb_false.
  split.
  - intros [[Ha Hb] Hs]. split; [exact Ha |]. split; [exact Hb |].
    destruct (Rabs_gt_half_sign a Ha) as [[Ha' Sa] | [Ha' Sa]];
      destruct (Rabs_gt_half_sign b Hb) as [[Hb' Sb] | [Hb' Sb]];
      rewrite Sa, Sb in Hs; try (exfalso; apply Hs; reflexivity); nra.
  - intros (Ha & Hb & Hab). split; [split; assumption |].
    destruct (Rabs_gt_half_sign a Ha) as [[Ha' Sa] | [Ha' Sa]];
      destruct (Rabs_gt_half_sign b Hb) as [[Hb' Sb] | [Hb' Sb]];
      rewrite Sa, Sb; try lra; exfalso; nra.
Qed.

(** The test of lines 192-193: both alignments above 0.5 in magnitude, of
    the same sign. *)
Lemma panTest_true (a b : R) :
  panTest a b = true <-> Rabs a > 1 / 2 /\ Rabs b > 1 / 2 /\ a * b > 0.
Proof.
  unfold panTest, Js.abs. rewrite !andb_true_iff.
  rewrite !JsFacts.gtb_true, JsFacts.eqb_true.
  split.
  - intros [[Ha Hb] Hs]. split; [exact Ha |]. split; [exact Hb |].
    destruct (Rabs_gt_half_sign a Ha) as [[Ha' Sa] | [Ha' Sa]];
      destruct (Rabs_gt_half_sign b Hb) as [[Hb' Sb] | [Hb' Sb]];
      rewrite Sa, Sb in Hs; try lra; nra.
  - intros (Ha & Hb & Hab). split; [split; assumption |].
    destruct (Rabs_gt_half_sign a Ha) as [[Ha' Sa] | [Ha' Sa]];
      destruct (Rabs_gt_half_sign b Hb) as [[Hb' Sb] | [Hb' Sb]];
      rewrite Sa, Sb; try reflexivity; exfalso; nra.
Qed.

Lemma classify_unfold (c : Controller) (old0 old1 new0 new1 : point) :
  classify c old0 old1 new0 new1
  = if pinch c && pinchTest (pinchMotion old0 old1 old0 new0)
                            (pinchMotion old0 old1 old1 new1)
    then [CallPinch (pointDist new0 new1 - pointDist old0 old1)]
    else if twoFingerDrag c
            && panTest (panMotion old0 old1 new0 new1 old0 new0)
                       (panMotion old0 old1 new0 new1 old1 new1)
         then
           let panAmount :=
             vec2_lerp (motionVector old0 new0) (motionVector old1 new1)
                       (1 / 2) in
           [CallTwoFingerDrag (Vec2 (v2_0 panAmount) (- v2_1 panAmount))]
         else [].
Proof. reflexivity. Qed.

(** With both callbacks registered, the pinch callback is the one called
    exactly when the pinch test holds; the drag callback exactly when the
    pinch test fails and the pan test holds; none otherwise. *)
Lemma classify_pinch_iff (c : Controller) (old0 old1 new0 new1 : point) :
  pinch c = true ->
  (exists a, classify c old0 old1 new0 new1 = [CallPinch a])
  <-> pinchTest (pinchMotion old0 old1 old0 new0)
                (pinchMotion old0 old1 old1 new1) = true.
Proof.
  intros Hp. rewrite classify_unfold, Hp. simpl.
  destruct (pinchTest _ _).
  - split; [reflexivity | eauto].
  - split; [| discriminate]. intros [a H].
    destruct (twoFingerDrag c && panTest _ _); discriminate.
Qed.

Lemma classify_drag_iff (c : Controller) (old0 old1 new0 new1 : point) :
  pinch c = true -> twoFingerDrag c = true ->
  (exists v, classify c old0 old1 new0 new1 = [CallTwoFingerDrag v])
  <-> pinchTest (pinchMotion old0 old1 old0 new0)
                (pinchMotion old0 old1 old1 new1) = false
      /\ panTest (panMotion old0 old1 new0 new1 old0 new0)
                 (panMotion old0 old1 new0 new1 old1 new1) = true.
Proof.
  intros Hp Hd. rewrite classify_unfold, Hp, Hd. simpl.
  destruct (pinchTest _ _).
  - split; [intros [v H]; discriminate | intros [H _]; discriminate].
  - destruct (panTest _ _).
    + split; [auto | eauto].
    + split; [intros [v H]; discriminate | intros [_ H]; discriminate].
Qed.

Lemma classify_none (c : Controller) (old0 old1 new0 new1 : point) :
  pinchTest (pinchMotion old0 old1 old0 new0)
            (pinchMotion old0 old1 old1 new1) = false ->
  panTest (panMotion old0 old1 new0 new1 old0 new0)
          (panMotion old0 old1 new0 new1 old1 new1) = false ->
  classify c old0 old1 new0 new1 = [].
Proof.
  intros H1 H2. rewrite classify_unfold, H1, H2, !andb_false_r. reflexivity.
Qed.

(** With two or more tracked touches and no global [t], the loop of line
    139 throws before any callback is called and before [touches] is
    updated. *)
Lemma onTouchMove_throws (h : Host) (c : Controller) (evt : TouchEvent) :
  t_resolvable h = false -> (2 <= length (touches c))%nat ->
  onTouchMove h c evt = Thrown ReferenceError c [].
Proof.
  intros Ht Hn. unfold onTouchMove.
  destruct (touches c) as [| kv1 [| kv2 o]]; simpl in Hn; try lia.
  simpl. rewrite Ht. reflexivity.
Qed.

(** *** Evaluating [vec2.normalize] and [pointDist] *)

Lemma vec2_normalize_len (v : vec2) (l : R) :
  l > EPSILON -> v2_0 v * v2_0 v + v2_1 v * v2_1 v = l * l ->
  vec2_normalize v = Vec2 (v2_0 v / l) (v2_1 v / l).
Proof.
  intros Hl Hv. unfold vec2_normalize. rewrite Hv.
  assert (H0 : 0 <= l) by (unfold EPSILON in Hl; lra).
  rewrite (sqrt_square l H0).
  apply JsFacts.gtb_true in Hl. rewrite Hl. reflexivity.
Qed.

Lemma vec2_normalize_zero (v : vec2) :
  v2_0 v = 0 -> v2_1 v = 0 -> vec2_normalize v = Vec2 0 0.
Proof.
  intros H0 H1. unfold vec2_normalize. rewrite H0, H1.
  replace (0 * 0 + 0 * 0) with 0 by ring. rewrite sqrt_0.
  assert (E : Js.gtb 0 EPSILON = false)
    by (apply JsFacts.gtb_false; unfold EPSILON; lra).
  rewrite E. reflexivity.
Qed.

Lemma pointDist_len (a b : point) (l : R) :
  0 <= l ->
  (v2_0 b - v2_0 a) * (v2_0 b - v2_0 a) + (v2_1 b - v2_1 a) * (v2_1 b - v2_1 a)
  = l * l ->
  pointDist a b = l.
Proof.
  intros Hl H. unfold pointDist, Js.pow2. rewrite H. apply sqrt_square, Hl.
Qed.

Ltac vec2_eq := f_equal; cbn [v2_0 v2_1]; lra.

Lemma pinchTest_same (a : R) : pinchTest a a = false.
Proof.
  destruct (pinchTest a a) eqn:E; [| reflexivity].
  apply pinchTest_true in E. destruct E as (_ & _ & H). exfalso. nra.
Qed.

Lemma pinchTest_zero_r (a : R) : pinchTest a 0 = false.
Proof.
  destruct (pinchTest a 0) eqn:E; [| reflexivity].
  apply pinchTest_true in E. destruct E as (_ & _ & H). exfalso. lra.
Qed.

Lemma panTest_zero_r (a : R) : panTest a 0 = false.
Proof.
  destruct (panTest a 0) eqn:E; [| reflexivity].
  apply panTest_true in E. destruct E as (_ & _ & H). exfalso. lra.
Qed.

(** *** The three scenarios, past the loop of line 139 *)

(** Converging fingers: alignments 1 and -1 on the pinch axis, distance
    80 - 100. *)
Lemma classify_pinch_move :
  classify two_fingers (Vec2 0 100) (Vec2 100 100)
           (Vec2 (10 - 0) (100 - 0)) (Vec2 (90 - 0) (100 - 0))
  = [CallPinch (-20)].
Proof.
  assert (G10 : 10 > EPSILON) by (unfold EPSILON; lra).
  assert (G100 : 100 > EPSILON) by (unfold EPSILON; lra).
  assert (PA : pinchAxis (Vec2 0 100) (Vec2 100 100) = Vec2 1 0).
  { unfold pinchAxis.
    rewrite (vec2_normalize_len _ 100 G100) by (cbn [v2_0 v2_1]; ring).
    vec2_eq. }
  assert (MD0 : vec2_normalize
                  (motionVector (Vec2 0 100) (Vec2 (10 - 0) (100 - 0)))
                = Vec2 1 0).
  { unfold motionVector.
    rewrite (vec2_normalize_len _ 10 G10) by (cbn [v2_0 v2_1]; ring).
    vec2_eq. }
  assert (MD1 : vec2_normalize
                  (motionVector (Vec2 100 100) (Vec2 (90 - 0) (100 - 0)))
                = Vec2 (-1) 0).
  { unfold motionVector.
    rewrite (vec2_normalize_len _ 10 G10) by (cbn [v2_0 v2_1]; ring).
    vec2_eq. }
  assert (PT : pinchTest (pinchMotion (Vec2 0 100) (Vec2 100 100) (Vec2 0 100)
                                      (Vec2 (10 - 0) (100 - 0)))
                         (pinchMotion (Vec2 0 100) (Vec2 100 100)
                                      (Vec2 100 100) (Vec2 (90 - 0) (100 - 0)))
               = true).
  { unfold pinchMotion. rewrite PA, MD0, MD1.
    unfold vec2_dot; cbn [v2_0 v2_1].
    replace (1 * 1 + 0 * 0) with 1 by ring.
    replace (1 * -1 + 0 * 0) with (-1) by ring.
    apply pinchTest_true.
    rewrite (Rabs_right 1) by lra. rewrite (Rabs_left (-1)) by lra. lra. }
  rewrite classify_unfold, PT. cbn [pinch two_fingers andb].
  rewrite (pointDist_len _ _ 80) by (cbn [v2_0 v2_1]; first [lra | ring]).
  rewrite (pointDist_len _ _ 100) by (cbn [v2_0 v2_1]; first [lra | ring]).
  do 2 f_equal. lra.
Qed.

(** Two fingers that both move by (5, 5), wherever they were: the pinch
    test fails (equal alignments have equal signs), the pan test holds and
    the drag vector is (5, -5). *)
Lemma classify_same_motion (c : Controller) (old0 old1 new0 new1 : point) :
  twoFingerDrag c = true ->
  motionVector old0 new0 = Vec2 5 5 -> motionVector old1 new1 = Vec2 5 5 ->
  classify c old0 old1 new0 new1 = [CallTwoFingerDrag (Vec2 5 (-5))].
Proof.
  intros Hd M0 M1.
  assert (L : vec2_lerp (Vec2 5 5) (Vec2 5 5) (1 / 2) = Vec2 5 5)
    by (unfold vec2_lerp; vec2_eq).
  assert (S50 : sqrt 50 * sqrt 50 = 50) by (apply sqrt_sqrt; lra).
  assert (G : sqrt 50 > EPSILON).
  { assert (1 < sqrt 50) by (apply sqrt_gt_1; lra). unfold EPSILON. lra. }
  assert (N : vec2_normalize (Vec2 5 5) = Vec2 (5 / sqrt 50) (5 / sqrt 50)).
  { rewrite (vec2_normalize_len _ (sqrt 50) G);
      cbn [v2_0 v2_1]; [reflexivity | lra]. }
  rewrite classify_unfold. unfold pinchMotion, panMotion, panAxis.
  rewrite M0, M1, pinchTest_same, andb_false_r, L, N, Hd.
  assert (PT : panTest (vec2_dot (Vec2 (5 / sqrt 50) (5 / sqrt 50))
                                 (Vec2 (5 / sqrt 50) (5 / sqrt 50)))
                       (vec2_dot (Vec2 (5 / sqrt 50) (5 / sqrt 50))
                                 (Vec2 (5 / sqrt 50) (5 / sqrt 50))) = true).
  { unfold vec2_dot; cbn [v2_0 v2_1].
    replace (5 / sqrt 50 * (5 / sqrt 50) + 5 / sqrt 50 * (5 / sqrt 50))
      with (50 / (sqrt 50 * sqrt 50)) by (field; unfold EPSILON in G; lra).
    rewrite S50. replace (50 / 50) with 1 by lra.
    apply panTest_true. rewrite (Rabs_right 1) by lra. lra. }
  rewrite PT. cbn [andb]. cbv zeta. unfold vec2_lerp; cbn [v2_0 v2_1].
  repeat f_equal; lra.
Qed.

(** One finger moving across the axis while the other rests: alignments
    (0, 0) on the pinch axis and (1, 0) on the pan axis, so no callback. *)
Lemma classify_ambiguous_move :
  classify two_fingers (Vec2 0 100) (Vec2 100 100)
           (Vec2 (0 - 0) (110 - 0)) (Vec2 100 100)
  = [].
Proof.
  assert (MD1 : vec2_normalize (motionVector (Vec2 100 100) (Vec2 100 100))
                = Vec2 0 0).
  { apply vec2_normalize_zero; unfold motionVector; cbn [v2_0 v2_1]; lra. }
  apply classify_none.
  - unfold pinchMotion at 2. rewrite MD1. unfold vec2_dot; cbn [v2_0 v2_1].
    rewrite !Rmult_0_r, Rplus_0_r. apply pinchTest_zero_r.
  - unfold panMotion at 2. rewrite MD1. unfold vec2_dot; cbn [v2_0 v2_1].
    rewrite !Rmult_0_r, Rplus_0_r. apply panTest_zero_r.
Qed.

Lemma onTouchMove_pinch_move_resolvable :
  onTouchMove (host true) two_fingers pinch_move
  = Normal (set_touches two_fingers
              [(0%N, Vec2 (10 - 0) (100 - 0)); (1%N, Vec2 (90 - 0) (100 - 0))])
           [CallPinch (-20)].
Proof. rewrite <- classify_pinch_move. reflexivity. Qed.

Lemma onTouchMove_drag_move_resolvable :
  onTouchMove (host true) two_fingers drag_move
  = Normal (set_touches two_fingers
              [(0%N, Vec2 (5 - 0) (105 - 0)); (1%N, Vec2 (105 - 0) (105 - 0))])
           [CallTwoFingerDrag (Vec2 5 (-5))].
Proof.
  rewrite <- (classify_same_motion two_fingers (Vec2 0 100) (Vec2 100 100)
                (Vec2 (5 - 0) (105 - 0)) (Vec2 (105 - 0) (105 - 0)));
    [ reflexivity | reflexivity
    | unfold motionVector; vec2_eq | unfold motionVector; vec2_eq ].
Qed.

Lemma onTouchMove_ambiguous_move_resolvable :
  onTouchMove (host true) two_fingers ambiguous_move
  = Normal (set_touches two_fingers
              [(0%N, Vec2 (0 - 0) (110 - 0)); (1%N, Vec2 100 100)])
           [].
Proof. rewrite <- classify_ambiguous_move. reflexivity. Qed.

(** *** What every call of [onTouchMove] does to [touches] *)

(** A call that returns has stored every changed position. *)
Lemma onTouchMove_normal_updates (h : Host) (c c' : Controller)
      (evt : TouchEvent) (calls : list Call) :
  onTouchMove h c evt = Normal c' calls ->
  c' = set_touches c (updateTouches h (touches c) evt).
Proof.
  unfold onTouchMove.
  destruct (Nat.eqb (length (touches c)) 1).
  - destruct (mousemove c); [destruct evt |]; intros E;
      inversion E; reflexivity.
  - destruct (touches c) as [| kv o]; [discriminate |].
    destruct (t_resolvable h); [| discriminate].
    destruct (fold_left _ _ _) as [cur old].
    destruct (nth_error (map snd cur) 0); [| discriminate].
    destruct (nth_error old 0); [| discriminate].
    destruct (nth_error (map snd cur) 1); [| discriminate].
    destruct (nth_error old 1); [| discriminate].
    intros E; inversion E; reflexivity.
Qed.

(** A call that throws has called no callback and stored nothing. *)
Lemma onTouchMove_thrown_unchanged (h : Host) (c c' : Controller)
      (evt : TouchEvent) (e : Error) (calls : list Call) :
  onTouchMove h c evt = Thrown e c' calls -> c' = c /\ calls = [].
Proof.
  unfold onTouchMove.
  destruct (Nat.eqb (length (touches c)) 1).
  - destruct (mousemove c); [destruct evt |]; intros E;
      inversion E; auto.
  - destruct (touches c) as [| kv o]; [intros E; inversion E; auto |].
    destruct (t_resolvable h); [| intros E; inversion E; auto].
    destruct (fold_left _ _ _) as [cur old].
    destruct (nth_error (map snd cur) 0);
      [| intros E; inversion E; auto].
    destruct (nth_error old 0); [| intros E; inversion E; auto].
    destruct (nth_error (map snd cur) 1);
      [| intros E; inversion E; auto].
    destruct (nth_error old 1); [| intros E; inversion E; auto].
    discriminate.
Qed.

(** The two-finger state is the one two [touchstart] contacts leave. *)
Lemma two_fingers_from_onTouchStart (t_global : bool) :
  onTouchStart (host t_global) (set_touches two_fingers [])
               [mkTouch 0 0 100; mkTouch 1 100 100]
  = Normal two_fingers [].
Proof.
  unfold onTouchStart, touchPoint, host; simpl.
  replace (0 - 0) with 0 by lra. replace (100 - 0) with 100 by lra.
  reflexivity.
Qed.

(** *** The scenarios, through [onTouchMove] *)

(** C2: with touches tracked at (0, 100) and (100, 100) that move to
    (10, 100) and (90, 100), [onTouchMove] throws a ReferenceError at the
    loop [for (t in this.touches)] and calls no callback, [t] being declared
    nowhere in scope; only on a page that provides a global [t] does it
    reach the classification and call the pinch callback, once, with
    -20. *)
Theorem pinch_scenario_outcome :
  onTouchMove (host false) two_fingers pinch_move
  = Thrown ReferenceError two_fingers []
  /\ onTouchMove (host true) two_fingers pinch_move
     = Normal (set_touches two_fingers
                 [(0%N, Vec2 (10 - 0) (100 - 0));
                  (1%N, Vec2 (90 - 0) (100 - 0))])
              [CallPinch (-20)].
Proof.
  split.
  - apply onTouchMove_throws; [reflexivity | simpl; lia].
  - apply onTouchMove_pinch_move_resolvable.
Qed.

(** C8: with both tracked touches moving by (+5, +5), [onTouchMove] throws
    a ReferenceError at the loop [for (t in this.touches)] and calls no
    callback; only on a page that provides a global [t] does it call the
    two-finger-drag callback, once, with (5, -5). *)
Theorem drag_scenario_outcome :
  onTouchMove (host false) two_fingers drag_move
  = Thrown ReferenceError two_fingers []
  /\ onTouchMove (host true) two_fingers drag_move
     = Normal (set_touches two_fingers
                 [(0%N, Vec2 (5 - 0) (105 - 0));
                  (1%N, Vec2 (105 - 0) (105 - 0))])
              [CallTwoFingerDrag (Vec2 5 (-5))].
Proof.
  split.
  - apply onTouchMove_throws; [reflexivity | simpl; lia].
  - apply onTouchMove_drag_move_resolvable.
Qed.

(** C9: on a two-touch move that passes neither threshold test (one finger
    moves across the axis, the other rests), [onTouchMove] calls no
    callback, but it throws a ReferenceError at the loop
    [for (t in this.touches)] and leaves [touches] as it was: the moved
    finger is still recorded at (0, 100).  Only on a page that provides a
    global [t] does the handler return and store the new position. *)
Theorem ambiguous_scenario_outcome :
  onTouchMove (host false) two_fingers ambiguous_move
  = Thrown ReferenceError two_fingers []
  /\ obj_get (touches two_fingers) 0 = Some (Vec2 0 100)
  /\ onTouchMove (host true) two_fingers ambiguous_move
     = Normal (set_touches two_fingers
                 [(0%N, Vec2 (0 - 0) (110 - 0)); (1%N, Vec2 100 100)])
              [].
Proof.
  split; [| split].
  - apply onTouchMove_throws; [reflexivity | simpl; lia].
  - reflexivity.
  - apply onTouchMove_ambiguous_move_resolvable.
Qed.

(** ** More facts about the matrix library *)

Lemma mat4_invert_mul (m : mat4) :
  mat4_det m <> 0 -> mat4_mul (mat4_invert m) m = mat4_identity.
Proof.
  intros Hd. destruct m as [a0 a1 a2 a3 a4 a5 a6 a7 a8 a9 a10 a11 a12 a13 a14 a15].
  mat4_cbv.
  match type of Hd with
  | ?X <> 0 => generalize (Rinv_l X Hd); unfold Rdiv; rewrite ?Rmult_1_l;
               generalize (/ X)
  end.
  intros d Hdd.
  apply Mat4_ext; first [ ring | rewrite <- Hdd; ring ].
Qed.

Lemma vec4_transformMat4_mul (v : vec4) (a b : mat4) :
  vec4_transformMat4 v (mat4_mul a b)
  = vec4_transformMat4 (vec4_transformMat4 v b) a.
Proof. destruct v, a, b. mat4_cbv. f_equal; ring. Qed.

Lemma vec4_transformMat4_identity (v : vec4) :
  vec4_transformMat4 v mat4_identity = v.
Proof. destruct v. mat4_cbv. f_equal; ring. Qed.

Lemma mat4_invert_affine (m : mat4) :
  affine m -> mat4_det m <> 0 -> affine (mat4_invert m).
Proof.
  destruct m as [a0 a1 a2 a3 a4 a5 a6 a7 a8 a9 a10 a11 a12 a13 a14 a15].
  unfold affine; cbn [e3 e7 e11 e15]. intros (-> & -> & -> & ->) Hd.
  mat4_cbv.
  match type of Hd with
  | ?X <> 0 => generalize (Rinv_l X Hd); unfold Rdiv; rewrite ?Rmult_1_l;
               generalize (/ X)
  end.
  intros d Hdd.
  repeat split; first [ ring | rewrite <- Hdd; ring ].
Qed.

(** The matrix of a unit quaternion preserves dot products. *)
Lemma mat4_fromQuat_isometry (q : quat) (u0 u1 u2 v0 v1 v2 : R) :
  unit_quat q ->
  let a := vec4_transformMat4 (Vec4 u0 u1 u2 0) (mat4_fromQuat q) in
  let b := vec4_transformMat4 (Vec4 v0 v1 v2 0) (mat4_fromQuat q) in
  v4_0 a * v4_0 b + v4_1 a * v4_1 b + v4_2 a * v4_2 b
  = u0 * v0 + u1 * v1 + u2 * v2.
Proof.
  intros Hq. apply unit_quat_lenSq in Hq. destruct q as [x y z w].
  unfold quat_lenSq in Hq. mat4_cbv. cbv zeta. nsatz.
Qed.

(** ** Where the eye is *)

(** The view matrix of a well-formed camera takes a world point [p] to
    [R (p - pivot) + t]: shift by the opposite of the pivot, rotate, shift
    by the translation. *)
Lemma camera_apply_point (c : ArcballCamera) (p0 p1 p2 : R) :
  well_formed c ->
  vec4_transformMat4 (Vec4 p0 p1 p2 1) (camera c)
  = let r := vec4_transformMat4
               (Vec4 (p0 + e12 (centerTranslation c))
                     (p1 + e13 (centerTranslation c))
                     (p2 + e14 (centerTranslation c)) 0)
               (mat4_fromQuat (rotation c)) in
    Vec4 (v4_0 r + e12 (translation c)) (v4_1 r + e13 (translation c))
         (v4_2 r + e14 (translation c)) 1.
Proof.
  intros [Ht Hc _ Hcam _]. rewrite Hcam.
  unfold is_translation in Ht, Hc. rewrite Ht, Hc.
  destruct (rotation c). mat4_cbv. cbv zeta. f_equal; ring.
Qed.

(** The view matrix takes a direction [d] to [R d]. *)
Lemma camera_apply_direction (c : ArcballCamera) (d0 d1 d2 : R) :
  well_formed c ->
  vec4_transformMat4 (Vec4 d0 d1 d2 0) (camera c)
  = vec4_transformMat4 (Vec4 d0 d1 d2 0) (mat4_fromQuat (rotation c)).
Proof.
  intros [Ht Hc _ Hcam _]. rewrite Hcam.
  unfold is_translation in Ht, Hc. rewrite Ht, Hc.
  destruct (rotation c). mat4_cbv. f_equal; ring.
Qed.

Lemma well_formed_camera_affine (c : ArcballCamera) :
  well_formed c -> affine (camera c).
Proof.
  intros [Ht Hc _ Hcam _]. rewrite Hcam.
  apply (camera_product_shape _ _ (rotation c) Ht Hc).
Qed.

Lemma well_formed_invCamera_affine (c : ArcballCamera) :
  well_formed c -> affine (invCamera c).
Proof.
  intros H. rewrite (wf_invCamera _ H).
  apply mat4_invert_affine.
  - apply well_formed_camera_affine, H.
  - rewrite (well_formed_det _ H). lra.
Qed.

(** A column of [invCamera] is the vector [camera] maps to the matching
    unit vector. *)
Lemma camera_invCamera_column (c : ArcballCamera) (v : vec4) :
  well_formed c ->
  vec4_transformMat4 (vec4_transformMat4 v (invCamera c)) (camera c) = v.
Proof.
  intros H. rewrite <- vec4_transformMat4_mul.
  pose proof (well_formed_inverted c H) as Hi. unfold camera_inverted in Hi.
  rewrite Hi. apply vec4_transformMat4_identity.
Qed.

(** [eyePos] is the world point that the view matrix takes to the origin
    of view space. *)
Lemma eyePos_in_view_space (c : ArcballCamera) :
  well_formed c ->
  vec4_transformMat4
    (Vec4 (v3_0 (eyePos c)) (v3_1 (eyePos c)) (v3_2 (eyePos c)) 1) (camera c)
  = Vec4 0 0 0 1.
Proof.
  intros H.
  destruct (well_formed_invCamera_affine c H) as (_ & _ & _ & H15).
  transitivity
    (vec4_transformMat4 (vec4_transformMat4 (Vec4 0 0 0 1) (invCamera c))
                        (camera c)).
  - f_equal. unfold eyePos, vec4_transformMat4;
      cbn [v3_0 v3_1 v3_2 v4_0 v4_1 v4_2 v4_3].
    f_equal; try ring. rewrite H15. ring.
  - apply camera_invCamera_column, H.
Qed.

(** The squared distance from the eye to the pivot is the squared length
    of the translation column. *)
Lemma eyePos_pivot_distance_sq (c : ArcballCamera) :
  well_formed c ->
  vec3_dot (vec3_sub (eyePos c) (pivot c)) (vec3_sub (eyePos c) (pivot c))
  = e12 (translation c) * e12 (translation c)
    + e13 (translation c) * e13 (translation c)
    + e14 (translation c) * e14 (translation c).
Proof.
  intros H. pose proof (eyePos_in_view_space c H) as E.
  rewrite (camera_apply_point c _ _ _ H) in E. cbv zeta in E.
  set (u0 := v3_0 (eyePos c) + e12 (centerTranslation c)) in *.
  set (u1 := v3_1 (eyePos c) + e13 (centerTranslation c)) in *.
  set (u2 := v3_2 (eyePos c) + e14 (centerTranslation c)) in *.
  pose proof (mat4_fromQuat_isometry (rotation c) u0 u1 u2 u0 u1 u2
                (wf_rotation _ H)) as I.
  cbv zeta in I.
  set (r := vec4_transformMat4 (Vec4 u0 u1 u2 0) (mat4_fromQuat (rotation c))) in *.
  assert (E0 : v4_0 r + e12 (translation c) = 0)
    by (exact (f_equal v4_0 E)).
  assert (E1 : v4_1 r + e13 (translation c) = 0)
    by (exact (f_equal v4_1 E)).
  assert (E2 : v4_2 r + e14 (translation c) = 0)
    by (exact (f_equal v4_2 E)).
  replace (vec3_dot (vec3_sub (eyePos c) (pivot c))
                    (vec3_sub (eyePos c) (pivot c)))
    with (u0 * u0 + u1 * u1 + u2 * u2)
    by (unfold vec3_dot, vec3_sub, pivot, u0, u1, u2;
        cbn [v3_0 v3_1 v3_2]; ring).
  rewrite <- I.
  replace (v4_0 r) with (- e12 (translation c)) by lra.
  replace (v4_1 r) with (- e13 (translation c)) by lra.
  replace (v4_2 r) with (- e14 (translation c)) by lra.
  ring.
Qed.

Lemma step_on_view_axis (c : ArcballCamera) (o : operation) :
  is_translation (translation c) -> on_view_axis c -> on_view_axis (step c o).
Proof.
  intros Ht (H12 & H13 & H14). destruct o as [p q | a | d]; simpl.
  - unfold on_view_axis, rotate, updateCameraMatrix; cbn [translation]. auto.
  - pose proof (zoom_depth c a) as Hz.
    unfold on_view_axis. split; [| split; [| lra]].
    + unfold zoom, updateCameraMatrix; cbn [translation].
      unfold is_translation in Ht. rewrite Ht.
      destruct (Js.geb _ _); mat4_cbv; rewrite H12; ring.
    + unfold zoom, updateCameraMatrix; cbn [translation].
      unfold is_translation in Ht. rewrite Ht.
      destruct (Js.geb _ _); mat4_cbv; rewrite H13; ring.
  - unfold on_view_axis, pan, updateCameraMatrix; cbn [translation]. auto.
Qed.

Lemma run_on_view_axis (os : list operation) (c : ArcballCamera) :
  well_formed c -> on_view_axis c -> on_view_axis (run c os).
Proof.
  revert c. induction os as [| o os IH]; intros c Hw Ha; simpl.
  - exact Ha.
  - apply IH.
    + apply step_well_formed, Hw.
    + apply step_on_view_axis; [apply (wf_translation _ Hw) | exact Ha].
Qed.

Lemma constructor_on_view_axis (fromMat : mat3 -> quat) (eye center up : vec3)
      (zoomSpeed0 : R) (screenDims : vec2) :
  on_view_axis (Arcball.constructor fromMat eye center up zoomSpeed0 screenDims).
Proof.
  unfold on_view_axis, Arcball.constructor, updateCameraMatrix; cbn [translation].
  mat4_cbv. repeat split; try reflexivity.
  assert (0 <= vec3_len (vec3_sub center eye)) by (apply sqrt_pos). lra.
Qed.

Lemma vec3_len_dot (v : vec3) : vec3_len v = sqrt (vec3_dot v v).
Proof. reflexivity. Qed.

Lemma eyePos_distance_on_axis (c : ArcballCamera) :
  well_formed c -> on_view_axis c ->
  vec3_len (vec3_sub (eyePos c) (pivot c)) = - e14 (translation c).
Proof.
  intros Hw (H12 & H13 & H14).
  rewrite vec3_len_dot, (eyePos_pivot_distance_sq c Hw), H12, H13.
  replace (0 * 0 + 0 * 0 + e14 (translation c) * e14 (translation c))
    with ((- e14 (translation c)) * (- e14 (translation c))) by ring.
  apply sqrt_square. lra.
Qed.

(** X1: on every camera reached from the constructor, the eye lies at
    distance [- translation[14]] from the pivot; [rotate] and [pan], which
    leave [translation] alone, keep that distance. *)
Theorem eyePos_distance_from_pivot
        (fromMat : mat3 -> quat) (eye center up : vec3) (zoomSpeed0 : R)
        (screenDims : vec2) (os : list operation) :
  let c := run (Arcball.constructor fromMat eye center up zoomSpeed0 screenDims) os in
  vec3_len (vec3_sub (eyePos c) (pivot c)) = - e14 (translation c).
Proof.
  intros c. apply eyePos_distance_on_axis.
  - apply run_well_formed, constructor_well_formed.
  - apply run_on_view_axis.
    + apply constructor_well_formed.
    + apply constructor_on_view_axis.
Qed.

(** X2: a fresh camera has its pivot at [center] and its eye as far from
    [center] as the [eye] argument is. *)
Theorem constructor_eye_distance
        (fromMat : mat3 -> quat) (eye center up : vec3) (zoomSpeed0 : R)
        (screenDims : vec2) :
  let c := Arcball.constructor fromMat eye center up zoomSpeed0 screenDims in
  pivot c = center
  /\ vec3_len (vec3_sub (eyePos c) center) = vec3_len (vec3_sub center eye).
Proof.
  intros c.
  assert (Hp : pivot c = center).
  { unfold c, pivot, Arcball.constructor, updateCameraMatrix; cbn [centerTranslation].
    rewrite mat4_invert_translation. destruct center. mat4_cbv.
    cbn [v3_0 v3_1 v3_2]. f_equal; ring. }
  split; [exact Hp |].
  rewrite <- Hp at 1.
  rewrite (eyePos_distance_on_axis c)
    by (apply constructor_well_formed || apply constructor_on_view_axis).
  unfold c, Arcball.constructor, updateCameraMatrix; cbn [translation].
  mat4_cbv. ring.
Qed.

(** ** Where the camera looks *)

Lemma world_axis_eyeDir (c : ArcballCamera) : eyeDir c = world_axis c 0 0 (-1).
Proof. reflexivity. Qed.

Lemma world_axis_upDir (c : ArcballCamera) : upDir c = world_axis c 0 1 0.
Proof. reflexivity. Qed.

(** The vector [world_axis] normalizes is a direction of length one, so
    the normalization returns it as it is. *)
Lemma world_axis_raw (c : ArcballCamera) (a0 a1 a2 : R) :
  well_formed c -> a0 * a0 + a1 * a1 + a2 * a2 = 1 ->
  let g := vec4_transformMat4 (Vec4 a0 a1 a2 0) (invCamera c) in
  v4_3 g = 0
  /\ v4_0 g * v4_0 g + v4_1 g * v4_1 g + v4_2 g * v4_2 g = 1
  /\ world_axis c a0 a1 a2 = Vec3 (v4_0 g) (v4_1 g) (v4_2 g)
  /\ vec4_transformMat4 (Vec4 (v4_0 g) (v4_1 g) (v4_2 g) 0) (camera c)
     = Vec4 a0 a1 a2 0.
Proof.
  intros H Ha g.
  destruct (well_formed_invCamera_affine c H) as (I3 & I7 & I11 & _).
  assert (G3 : v4_3 g = 0).
  { unfold g, vec4_transformMat4; cbn [v4_0 v4_1 v4_2 v4_3].
    rewrite I3, I7, I11. ring. }
  assert (Gv : g = Vec4 (v4_0 g) (v4_1 g) (v4_2 g) 0)
    by (rewrite <- G3; destruct g; reflexivity).
  assert (Gc : vec4_transformMat4 (Vec4 (v4_0 g) (v4_1 g) (v4_2 g) 0) (camera c)
               = Vec4 a0 a1 a2 0).
  { rewrite <- Gv. apply camera_invCamera_column, H. }
  assert (Gn : v4_0 g * v4_0 g + v4_1 g * v4_1 g + v4_2 g * v4_2 g = 1).
  { pose proof (mat4_fromQuat_isometry (rotation c) (v4_0 g) (v4_1 g) (v4_2 g)
                  (v4_0 g) (v4_1 g) (v4_2 g) (wf_rotation _ H)) as I.
    cbv zeta in I. rewrite <- (camera_apply_direction c _ _ _ H), Gc in I.
    cbn [v4_0 v4_1 v4_2] in I. lra. }
  split; [exact G3 |]. split; [exact Gn |]. split; [| exact Gc].
  unfold world_axis. fold g. unfold vec4_normalize.
  rewrite G3.
  replace (v4_0 g * v4_0 g + v4_1 g * v4_1 g + v4_2 g * v4_2 g + 0 * 0)
    with 1 by lra.
  rewrite sqrt_1.
  assert (E : Js.gtb 1 EPSILON = true)
    by (apply JsFacts.gtb_true; unfold EPSILON; lra).
  rewrite E. cbn [v4_0 v4_1 v4_2]. f_equal; field.
Qed.

(** X3: on a well-formed camera [eyeDir] and [upDir] have length one, are
    orthogonal, and are the world directions that the view matrix takes to
    the view-space axes (0, 0, -1) and (0, 1, 0). *)
Theorem eyeDir_upDir_frame (c : ArcballCamera) :
  well_formed c ->
  vec3_dot (eyeDir c) (eyeDir c) = 1
  /\ vec3_dot (upDir c) (upDir c) = 1
  /\ vec3_dot (eyeDir c) (upDir c) = 0
  /\ vec4_transformMat4
       (Vec4 (v3_0 (eyeDir c)) (v3_1 (eyeDir c)) (v3_2 (eyeDir c)) 0) (camera c)
     = Vec4 0 0 (-1) 0
  /\ vec4_transformMat4
       (Vec4 (v3_0 (upDir c)) (v3_1 (upDir c)) (v3_2 (upDir c)) 0) (camera c)
     = Vec4 0 1 0 0.
Proof.
  intros H.
  destruct (world_axis_raw c 0 0 (-1) H ltac:(lra)) as (_ & En & Ee & Ec).
  destruct (world_axis_raw c 0 1 0 H ltac:(lra)) as (_ & Un & Ue & Uc).
  cbv zeta in *.
  set (g := vec4_transformMat4 (Vec4 0 0 (-1) 0) (invCamera c)) in *.
  set (u := vec4_transformMat4 (Vec4 0 1 0 0) (invCamera c)) in *.
  rewrite world_axis_eyeDir, world_axis_upDir, Ee, Ue.
  unfold vec3_dot; cbn [v3_0 v3_1 v3_2].
  split; [exact En |]. split; [exact Un |].
  split; [| split; [exact Ec | exact Uc]].
  pose proof (mat4_fromQuat_isometry (rotation c) (v4_0 g) (v4_1 g) (v4_2 g)
                (v4_0 u) (v4_1 u) (v4_2 u) (wf_rotation _ H)) as I.
  cbv zeta in I.
  rewrite <- !(camera_apply_direction c _ _ _ H), Ec, Uc in I.
  cbn [v4_0 v4_1 v4_2] in I. lra.
Qed.

Lemma eyeDir_upDir_frame_witness :
  vec3_dot (eyeDir camera0) (eyeDir camera0) = 1
  /\ vec3_dot (eyeDir camera0) (upDir camera0) = 0.
Proof.
  destruct (eyeDir_upDir_frame camera0 camera0_well_formed)
    as (H1 & _ & H2 & _).
  split; [exact H1 | exact H2].
Defined.

Lemma invCamera_linear_of_rotation (c c' : ArcballCamera) :
  well_formed c -> well_formed c' -> rotation c' = rotation c ->
  same_linear (invCamera c') (invCamera c).
Proof.
  intros H H' Hr.
  rewrite (wf_invCamera _ H), (wf_invCamera _ H').
  rewrite (wf_camera _ H), (wf_camera _ H').
  destruct (camera_product_shape _ _ (rotation c)
              (wf_translation _ H) (wf_center _ H)) as [Ha Hl].
  destruct (camera_product_shape _ _ (rotation c')
              (wf_translation _ H') (wf_center _ H')) as [Ha' Hl'].
  apply mat4_invert_same_linear; try assumption.
  eapply same_linear_trans; [exact Hl' |].
  rewrite Hr. apply same_linear_sym. exact Hl.
Qed.

Lemma world_axis_of_rotation (c c' : ArcballCamera) (a0 a1 a2 : R) :
  well_formed c -> well_formed c' -> rotation c' = rotation c ->
  world_axis c' a0 a1 a2 = world_axis c a0 a1 a2.
Proof.
  intros H H' Hr.
  destruct (invCamera_linear_of_rotation c c' H H' Hr)
    as (L0 & L1 & L2 & L4 & L5 & L6 & L8 & L9 & L10).
  destruct (well_formed_invCamera_affine c H) as (A3 & A7 & A11 & _).
  destruct (well_formed_invCamera_affine c' H') as (B3 & B7 & B11 & _).
  unfold world_axis.
  replace (vec4_transformMat4 (Vec4 a0 a1 a2 0) (invCamera c'))
    with (vec4_transformMat4 (Vec4 a0 a1 a2 0) (invCamera c)); [reflexivity |].
  unfold vec4_transformMat4; cbn [v4_0 v4_1 v4_2 v4_3].
  rewrite L0, L1, L2, L4, L5, L6, L8, L9, L10, A3, A7, A11, B3, B7, B11.
  f_equal; ring.
Qed.

(** X4: [zoom] and [pan] turn neither [eyeDir] nor [upDir]. *)
Theorem zoom_pan_keep_directions
        (c : ArcballCamera) (amount : R) (mouseDelta : vec2) :
  well_formed c ->
  eyeDir (zoom c amount) = eyeDir c /\ upDir (zoom c amount) = upDir c
  /\ eyeDir (pan c mouseDelta) = eyeDir c
  /\ upDir (pan c mouseDelta) = upDir c.
Proof.
  intros H.
  pose proof (zoom_well_formed c amount H) as Hz.
  pose proof (pan_well_formed c mouseDelta H) as Hp.
  rewrite !world_axis_eyeDir, !world_axis_upDir.
  repeat split; apply world_axis_of_rotation; auto.
Qed.

Lemma zoom_pan_keep_directions_witness :
  eyeDir (zoom camera0 3) = eyeDir camera0
  /\ upDir (pan camera0 (Vec2 1 2)) = upDir camera0.
Proof.
  destruct (zoom_pan_keep_directions camera0 3 (Vec2 1 2) camera0_well_formed)
    as (H1 & _ & _ & H2).
  split; [exact H1 | exact H2].
Defined.

(** ** More about zoom *)

(** X5: on a well-formed camera, [zoom] sets the depth to the smaller of
    the old depth plus [amount * invScreen[1] * zoomSpeed] and -0.2. *)
Theorem zoom_depth_min (c : ArcballCamera) (amount : R) :
  well_formed c ->
  e14 (translation (zoom c amount))
  = Rmin (e14 (translation c) + amount * v2_1 (invScreen c) * zoomSpeed c)
         (-2 / 10).
Proof.
  intros H. pose proof (wf_translation _ H) as Ht.
  unfold zoom, updateCameraMatrix; cbn [translation].
  unfold is_translation in Ht. rewrite Ht.
  set (t14 := e14 (translation c)).
  destruct (Js.geb _ _) eqn:Hg.
  - apply JsFacts.geb_true in Hg. mat4_cbv.
    unfold Rmin. destruct (Rle_dec _ _); lra.
  - apply JsFacts.geb_false in Hg. mat4_cbv.
    unfold Rmin. destruct (Rle_dec _ _); lra.
Qed.

Lemma zoom_depth_min_witness :
  e14 (translation (zoom camera0 100))
  = Rmin (e14 (translation camera0) + 100 * v2_1 (invScreen camera0)
                                      * zoomSpeed camera0)
         (-2 / 10).
Proof. apply (zoom_depth_min camera0 100), camera0_well_formed. Defined.






Lemma updateCameraMatrix_derived (zs : R) (isc : vec2) (ct tr : mat4) (q : quat)
      (cam icam cam' icam' : mat4) :
  updateCameraMatrix (mkCamera zs isc ct tr q cam icam)
  = updateCameraMatrix (mkCamera zs isc ct tr q cam' icam').
Proof. reflexivity. Qed.

(** Away from the clamp, [zoom] adds its delta to the depth. *)
Lemma zoom_unclamped (c : ArcballCamera) (a : R) :
  well_formed c -> e14 (translation c) + zoom_delta c a < -2 / 10 ->
  translation (zoom c a)
  = mat4_translation (e12 (translation c)) (e13 (translation c))
                     (e14 (translation c) + zoom_delta c a).
Proof.
  intros H Ha. pose proof (wf_translation _ H) as Ht.
  unfold is_translation in Ht. unfold zoom_delta in *.
  unfold zoom, updateCameraMatrix; cbn [translation]. rewrite Ht.
  match goal with |- context [Js.geb ?x ?y] =>
    assert (G : Js.geb x y = false)
      by (apply JsFacts.geb_false; mat4_cbv; lra)
  end.
  rewrite G. mat4_cbv. apply Mat4_ext; ring.
Qed.

Lemma zoom_of_translation (c : ArcballCamera) (a : R) :
  zoom c a
  = updateCameraMatrix
      (mkCamera (zoomSpeed c) (invScreen c) (centerTranslation c)
                (translation (zoom c a)) (rotation c) (camera c) (invCamera c)).
Proof. reflexivity. Qed.

(** X7: two zooms that stay clear of the clamp add up. *)
Theorem zoom_zoom (c : ArcballCamera) (a b : R) :
  well_formed c ->
  e14 (translation c) + zoom_delta c a < -2 / 10 ->
  e14 (translation c) + zoom_delta c a + zoom_delta c b < -2 / 10 ->
  zoom (zoom c a) b = zoom c (a + b).
Proof.
  intros H Ha Hb.
  pose proof (zoom_unclamped c a H Ha) as E1.
  assert (E2 : translation (zoom (zoom c a) b)
               = mat4_translation (e12 (translation c)) (e13 (translation c))
                   (e14 (translation c) + zoom_delta c a + zoom_delta c b)).
  { rewrite (zoom_unclamped (zoom c a) b (zoom_well_formed c a H)).
    - rewrite E1. reflexivity.
    - rewrite E1. cbn [e14 mat4_translation].
      change (zoom_delta (zoom c a) b) with (zoom_delta c b). exact Hb. }
  assert (E3 : translation (zoom c (a + b))
               = mat4_translation (e12 (translation c)) (e13 (translation c))
                   (e14 (translation c) + zoom_delta c a + zoom_delta c b)).
  { rewrite (zoom_unclamped c (a + b) H).
    - f_equal. unfold zoom_delta. ring.
    - unfold zoom_delta in *. lra. }
  rewrite (zoom_of_translation (zoom c a) b), (zoom_of_translation c (a + b)).
  rewrite E2, E3.
  apply updateCameraMatrix_derived.
Qed.

Lemma zoom_zoom_witness : zoom (zoom camera0 1) 2 = zoom camera0 (1 + 2).
Proof.
  apply (zoom_zoom camera0 1 2 camera0_well_formed);
    unfold zoom_delta, camera0, updateCameraMatrix; simpl; lra.
Defined.

(** X8: [zoom (0)] on a camera whose depth is at most -0.2, and the pan by
    (0, 0), leave a well-formed camera as it is. *)
Theorem zoom_pan_zero (c : ArcballCamera) :
  well_formed c -> e14 (translation c) <= -2 / 10 ->
  zoom c 0 = c /\ pan c (Vec2 0 0) = c.
Proof.
  intros H Hd. split.
  - assert (E : translation (zoom c 0) = translation c).
    { pose proof (wf_translation _ H) as Ht. unfold is_translation in Ht.
      unfold zoom, updateCameraMatrix; cbn [translation].
      remember (e12 (translation c)) as t12.
      remember (e13 (translation c)) as t13.
      remember (e14 (translation c)) as t14.
      rewrite Ht.
      destruct (Js.geb _ _) eqn:Hg.
      - apply JsFacts.geb_true in Hg. mat4_cbv.
        apply Mat4_ext; first [ring | lra].
      - mat4_cbv. apply Mat4_ext; ring. }
    rewrite (zoom_of_translation c 0), E. apply updateCameraMatrix_id, H.
  - rewrite pan_unfold.
    assert (E : mat4_mul (mat4_translation (v4_0 (pan_worldDelta c (Vec2 0 0)))
                                           (v4_1 (pan_worldDelta c (Vec2 0 0)))
                                           (v4_2 (pan_worldDelta c (Vec2 0 0))))
                         (centerTranslation c)
                = centerTranslation c).
    { unfold pan_worldDelta, vec4_transformMat4;
        cbn [v2_0 v2_1 v4_0 v4_1 v4_2 v4_3].
      destruct (centerTranslation c). mat4_cbv. apply Mat4_ext; ring. }
    rewrite E. apply updateCameraMatrix_id, H.
Qed.

Lemma camera0_depth : e14 (translation camera0) <= -2 / 10.
Proof. unfold camera0, updateCameraMatrix; simpl. lra. Qed.

Lemma zoom_pan_zero_witness :
  zoom camera0 0 = camera0 /\ pan camera0 (Vec2 0 0) = camera0.
Proof. apply (zoom_pan_zero camera0 camera0_well_formed camera0_depth). Defined.

(** ** More about rotate and screenToArcball *)

Lemma screenToArcball_scalar (p : vec2) : q_3 (screenToArcball p) = 0.
Proof.
  unfold screenToArcball. destruct (Js.leb _ _); reflexivity.
Qed.

(** X9: whatever the point, [screenToArcball] returns a quaternion of
    length one whose scalar slot is 0 and whose third slot is not
    negative: a point of the front unit hemisphere. *)
Theorem screenToArcball_hemisphere (p : vec2) :
  unit_quat (screenToArcball p)
  /\ q_3 (screenToArcball p) = 0
  /\ 0 <= q_2 (screenToArcball p).
Proof.
  split; [apply screenToArcball_unit |].
  split; [apply screenToArcball_scalar |].
  unfold screenToArcball. destruct (Js.leb _ _); cbn [q_2].
  - apply sqrt_pos.
  - lra.
Qed.

(** X10: on the unit circle the two branches of [screenToArcball] meet: the
    branch taken there returns what the other one would. *)
Theorem screenToArcball_boundary (p : vec2) :
  vec2_dot p p = 1 ->
  screenToArcball p = Quat (v2_0 p) (v2_1 p) 0 0
  /\ Quat (v2_0 (vec2_normalize p)) (v2_1 (vec2_normalize p)) 0 0
     = Quat (v2_0 p) (v2_1 p) 0 0.
Proof.
  intros H. split.
  - rewrite screenToArcball_inside by lra.
    rewrite H. replace (1 - 1) with 0 by ring. rewrite sqrt_0. reflexivity.
  - assert (G : 1 > EPSILON) by (unfold EPSILON; lra).
    rewrite (vec2_normalize_len p 1 G)
      by (unfold vec2_dot in H; rewrite H; ring).
    cbn [v2_0 v2_1]. f_equal; field.
Qed.

Lemma screenToArcball_boundary_witness :
  screenToArcball (Vec2 0 (-1)) = Quat 0 (-1) 0 0.
Proof.
  apply (screenToArcball_boundary (Vec2 0 (-1))).
  unfold vec2_dot; simpl. ring.
Defined.

(** X11: [clamp] returns a value between its bounds when they are ordered,
    and its first argument when that lies between them. *)
Theorem clamp_range (a lo hi : R) :
  lo <= hi ->
  lo <= clamp a lo hi <= hi /\ (lo <= a <= hi -> clamp a lo hi = a).
Proof.
  intros H. unfold clamp.
  destruct (Js.ltb a lo) eqn:E1.
  - apply JsFacts.ltb_true in E1. split; lra.
  - apply JsFacts.ltb_false in E1.
    destruct (Js.gtb a hi) eqn:E2.
    + apply JsFacts.gtb_true in E2. split; lra.
    + apply JsFacts.gtb_false in E2. split; [lra | reflexivity].
Qed.

Lemma clamp_range_witness : -1 <= clamp 7 (-1) 1 <= 1.
Proof. apply (clamp_range 7 (-1) 1). lra. Defined.

Lemma quat_mul_pure_square (b : quat) :
  q_3 b = 0 -> unit_quat b -> quat_mul b b = Quat 0 0 0 (-1).
Proof.
  intros H3 Hu. apply unit_quat_lenSq in Hu. destruct b as [x y z w].
  unfold quat_lenSq in Hu. cbn [q_0 q_1 q_2 q_3] in *. subst w.
  unfold quat_mul; cbn [q_0 q_1 q_2 q_3]. f_equal; try ring. lra.
Qed.

Lemma mat4_fromQuat_neg (q : quat) :
  mat4_fromQuat (quat_neg q) = mat4_fromQuat q.
Proof.
  destruct q. unfold quat_neg. mat4_cbv. apply Mat4_ext; ring.
Qed.

(** X12: when the two positions have the same second coordinate, [rotate]
    negates every slot of [rotation] and leaves [camera] and [invCamera]
    of a well-formed camera as they were: the first coordinate of
    [prevMouse] is not read, so both arcball points coincide. *)
Theorem rotate_same_row (c : ArcballCamera) (prevMouse curMouse : vec2) :
  well_formed c -> v2_1 prevMouse = v2_1 curMouse ->
  rotation (rotate c prevMouse curMouse) = quat_neg (rotation c)
  /\ camera (rotate c prevMouse curMouse) = camera c
  /\ invCamera (rotate c prevMouse curMouse) = invCamera c.
Proof.
  intros H Hy.
  assert (Er : rotation (rotate c prevMouse curMouse) = quat_neg (rotation c)).
  { unfold rotate, updateCameraMatrix; cbn [rotation]. rewrite Hy.
    rewrite quat_mul_assoc.
    rewrite quat_mul_pure_square
      by (apply screenToArcball_scalar || apply screenToArcball_unit).
    destruct (rotation c). unfold quat_mul, quat_neg; cbn [q_0 q_1 q_2 q_3].
    f_equal; ring. }
  assert (Ec : camera (rotate c prevMouse curMouse) = camera c).
  { rewrite (wf_camera _ (rotate_well_formed c prevMouse curMouse H)), Er.
    rewrite mat4_fromQuat_neg. symmetry. apply (wf_camera _ H). }
  split; [exact Er |]. split; [exact Ec |].
  rewrite (wf_invCamera _ (rotate_well_formed c prevMouse curMouse H)), Ec.
  symmetry. apply (wf_invCamera _ H).
Qed.

Lemma rotate_same_row_witness :
  camera (rotate camera0 (Vec2 0 1) (Vec2 2 1)) = camera camera0.
Proof.
  apply (rotate_same_row camera0 (Vec2 0 1) (Vec2 2 1) camera0_well_formed).
  reflexivity.
Defined.

(** X13: on every camera reached from the constructor the view matrix has
    determinant one and [invCamera] is its inverse on both sides, with no
    side condition. *)
Theorem reachable_camera_inverse
        (fromMat : mat3 -> quat) (eye center up : vec3) (zoomSpeed0 : R)
        (screenDims : vec2) (os : list operation) :
  let c := run (Arcball.constructor fromMat eye center up zoomSpeed0 screenDims) os in
  mat4_det (camera c) = 1
  /\ mat4_mul (camera c) (invCamera c) = mat4_identity
  /\ mat4_mul (invCamera c) (camera c) = mat4_identity.
Proof.
  intros c.
  assert (H : well_formed c)
    by (apply run_well_formed, constructor_well_formed).
  pose proof (well_formed_det c H) as Hd.
  split; [exact Hd |]. split; [apply well_formed_inverted, H |].
  rewrite (wf_invCamera _ H). apply mat4_invert_mul. rewrite Hd. lra.
Qed.

(** ** The touches object *)

Lemma obj_has_get (o : obj) (k : N) :
  obj_has o k = true <-> exists v, obj_get o k = Some v.
Proof.
  induction o as [| [k' v'] o IH]; simpl.
  - split; [discriminate | intros [v H]; discriminate].
  - destruct (N.eqb k k'); [split; eauto | exact IH].
Qed.

Lemma obj_has_false_get (o : obj) (k : N) :
  obj_has o k = false <-> obj_get o k = None.
Proof.
  induction o as [| [k' v'] o IH]; simpl.
  - tauto.
  - destruct (N.eqb k k'); [split; discriminate | exact IH].
Qed.

Lemma obj_get_set_same (o : obj) (k : N) (v : point) :
  obj_get (obj_set o k v) k = Some v.
Proof.
  induction o as [| [k' v'] o IH]; simpl.
  - rewrite N.eqb_refl. reflexivity.
  - destruct (N.eqb k k') eqn:E; simpl.
    + rewrite N.eqb_refl. reflexivity.
    + destruct (N.ltb k k'); simpl.
      * rewrite N.eqb_refl. reflexivity.
      * rewrite E. exact IH.
Qed.

Lemma obj_get_set_other (o : obj) (k k' : N) (v : point) :
  k' <> k -> obj_get (obj_set o k v) k' = obj_get o k'.
Proof.
  intros Hk. apply N.eqb_neq in Hk.
  induction o as [| [k0 v0] o IH]; simpl.
  - rewrite Hk. reflexivity.
  - destruct (N.eqb k k0) eqn:E; simpl.
    + apply N.eqb_eq in E. subst k0. rewrite Hk. reflexivity.
    + destruct (N.ltb k k0); simpl.
      * rewrite Hk. reflexivity.
      * destruct (N.eqb k' k0); [reflexivity | exact IH].
Qed.

(** In an object with ascending keys, no key below the first is present. *)
Lemma keys_ascending_below (o : obj) (k k0 : N) (v0 : point) :
  keys_ascending ((k0, v0) :: o) -> (k < k0)%N ->
  obj_get ((k0, v0) :: o) k = None.
Proof.
  revert k0 v0. induction o as [| [k1 v1] o IH]; intros k0 v0 Ha Hlt.
  - simpl. destruct (N.eqb_spec k k0); [lia | reflexivity].
  - simpl in Ha. destruct Ha as [H01 Ha].
    change (obj_get ((k0, v0) :: (k1, v1) :: o) k)
      with (if N.eqb k k0 then Some v0 else obj_get ((k1, v1) :: o) k).
    destruct (N.eqb_spec k k0); [lia |].
    apply IH; [exact Ha | lia].
Qed.

Lemma keys_ascending_tail (kv : N * point) (o : obj) :
  keys_ascending (kv :: o) -> keys_ascending o.
Proof. destruct kv. simpl. tauto. Qed.

Lemma keys_ascending_set (o : obj) (k : N) (v : point) :
  keys_ascending o -> keys_ascending (obj_set o k v).
Proof.
  induction o as [| [k0 v0] o IH]; intros Ha.
  - simpl. auto.
  - simpl. destruct (N.eqb_spec k k0).
    + subst k0. exact Ha.
    + destruct (N.ltb_spec k k0).
      * simpl. split; [exact H | exact Ha].
      * assert (Hlt : (k0 < k)%N) by lia.
        pose proof (IH (keys_ascending_tail _ _ Ha)) as IH'.
        destruct o as [| [k1 v1] o'].
        -- simpl. auto.
        -- simpl in Ha. destruct Ha as [H01 Ha'].
           simpl in IH' |- *.
           destruct (N.eqb_spec k k1).
           ++ subst k1. simpl. split; [exact H01 |]. exact Ha'.
           ++ destruct (N.ltb_spec k k1).
              ** simpl in *. split; [exact Hlt |]. exact IH'.
              ** simpl in IH' |- *. split; [exact H01 | exact IH'].
Qed.

Lemma keys_ascending_delete (o : obj) (k : N) :
  keys_ascending o -> keys_ascending (obj_delete o k).
Proof.
  induction o as [| [k0 v0] o IH]; intros Ha.
  - simpl. auto.
  - simpl. destruct (N.eqb_spec k k0).
    + apply (keys_ascending_tail _ _ Ha).
    + pose proof (IH (keys_ascending_tail _ _ Ha)) as IH'.
      destruct o as [| [k1 v1] o'].
      * simpl. auto.
      * simpl in Ha. destruct Ha as [H01 Ha'].
        simpl in IH' |- *.
        destruct (N.eqb_spec k k1).
        -- subst k1. destruct o' as [| [k2 v2] o''].
           ++ simpl. auto.
           ++ simpl in Ha' |- *. destruct Ha' as [H12 Ha''].
              split; [lia | exact Ha''].
        -- simpl in IH' |- *. split; [exact H01 | exact IH'].
Qed.

Lemma obj_get_delete_other (o : obj) (k k' : N) :
  k' <> k -> obj_get (obj_delete o k) k' = obj_get o k'.
Proof.
  intros Hk. induction o as [| [k0 v0] o IH]; simpl.
  - reflexivity.
  - destruct (N.eqb_spec k k0).
    + subst k0. destruct (N.eqb_spec k' k); [contradiction | reflexivity].
    + simpl. destruct (N.eqb k' k0); [reflexivity | exact IH].
Qed.

Lemma obj_get_delete_same (o : obj) (k : N) :
  keys_ascending o -> obj_get (obj_delete o k) k = None.
Proof.
  induction o as [| [k0 v0] o IH]; intros Ha; simpl.
  - reflexivity.
  - destruct (N.eqb_spec k k0).
    + subst k0. destruct o as [| [k1 v1] o']; [reflexivity |].
      apply keys_ascending_below.
      * apply (keys_ascending_tail _ _ Ha).
      * simpl in Ha. tauto.
    + simpl. destruct (N.eqb_spec k k0); [contradiction |].
      apply IH, (keys_ascending_tail _ _ Ha).
Qed.

Lemma obj_delete_absent (o : obj) (k : N) :
  obj_has o k = false -> obj_delete o k = o.
Proof.
  induction o as [| [k0 v0] o IH]; simpl; intros H.
  - reflexivity.
  - destruct (N.eqb k k0); [discriminate |]. rewrite IH by exact H. reflexivity.
Qed.

(** Two objects with ascending keys that answer every lookup alike are
    the same list. *)
Lemma obj_ext (o1 o2 : obj) :
  keys_ascending o1 -> keys_ascending o2 ->
  (forall k, obj_get o1 k = obj_get o2 k) -> o1 = o2.
Proof.
  revert o2. induction o1 as [| [k1 v1] o1 IH]; intros o2 H1 H2 E.
  - destruct o2 as [| [k2 v2] o2]; [reflexivity |].
    specialize (E k2). simpl in E. rewrite N.eqb_refl in E. discriminate.
  - destruct o2 as [| [k2 v2] o2].
    + specialize (E k1). simpl in E. rewrite N.eqb_refl in E. discriminate.
    + assert (Hk : k1 = k2).
      { destruct (N.lt_trichotomy k1 k2) as [Hlt | [Heq | Hgt]].
        - pose proof (E k1) as E1.
          rewrite (keys_ascending_below o2 k1 k2 v2 H2 Hlt) in E1.
          simpl in E1. rewrite N.eqb_refl in E1. discriminate.
        - exact Heq.
        - pose proof (E k2) as E2.
          rewrite (keys_ascending_below o1 k2 k1 v1 H1 Hgt) in E2.
          simpl in E2. rewrite N.eqb_refl in E2. discriminate. }
      subst k2.
      assert (Hv : v1 = v2).
      { pose proof (E k1) as E1. simpl in E1. rewrite N.eqb_refl in E1.
        congruence. }
      subst v2. f_equal.
      apply IH.
      * apply (keys_ascending_tail _ _ H1).
      * apply (keys_ascending_tail _ _ H2).
      * intros k. destruct (N.eqb_spec k k1) as [-> | Hne].
        -- destruct o1 as [| [ka va] o1']; destruct o2 as [| [kb vb] o2'];
             try reflexivity.
           ++ symmetry. apply keys_ascending_below.
              ** apply (keys_ascending_tail _ _ H2).
              ** simpl in H2. tauto.
           ++ apply keys_ascending_below.
              ** apply (keys_ascending_tail _ _ H1).
              ** simpl in H1. tauto.
           ++ rewrite keys_ascending_below;
                [| apply (keys_ascending_tail _ _ H1) | simpl in H1; tauto].
              symmetry. apply keys_ascending_below;
                [apply (keys_ascending_tail _ _ H2) | simpl in H2; tauto].
        -- specialize (E k). simpl in E.
           apply N.eqb_neq in Hne. rewrite Hne in E. exact E.
Qed.

(** ** Touch start and touch end *)

Lemma changed_false_lastTouch (evt : TouchEvent) (k : N) :
  changed evt k = false -> lastTouch evt k = None.
Proof.
  induction evt as [| t evt IH]; simpl; intros H.
  - reflexivity.
  - apply orb_false_iff in H. destruct H as [H1 H2].
    rewrite (IH H2), H1. reflexivity.
Qed.

Lemma changed_true_In (evt : TouchEvent) (k : N) :
  changed evt k = true -> exists t, In t evt /\ identifier t = k.
Proof.
  unfold changed. intros H. apply existsb_exists in H.
  destruct H as (t & Hin & Ht). apply N.eqb_eq in Ht. eauto.
Qed.

Lemma updateTouches_get (h : Host) (evt : TouchEvent) (o : obj) (k : N) :
  obj_get (updateTouches h o evt) k
  = match lastTouch evt k with
    | Some t => Some (touchPoint h t)
    | None => obj_get o k
    end.
Proof.
  revert o. induction evt as [| t evt IH]; intros o.
  - reflexivity.
  - change (updateTouches h o (t :: evt))
      with (updateTouches h (obj_set o (identifier t) (touchPoint h t)) evt).
    rewrite IH. simpl. destruct (lastTouch evt k); [reflexivity |].
    destruct (N.eqb_spec (identifier t) k) as [-> | Hne].
    + apply obj_get_set_same.
    + apply obj_get_set_other. congruence.
Qed.

Lemma updateTouches_ascending (h : Host) (evt : TouchEvent) (o : obj) :
  keys_ascending o -> keys_ascending (updateTouches h o evt).
Proof.
  revert o. induction evt as [| t evt IH]; intros o H.
  - exact H.
  - apply (IH (obj_set o (identifier t) (touchPoint h t))).
    apply keys_ascending_set, H.
Qed.

Lemma onTouchStart_fold (h : Host) (b : bool) (l : TouchEvent)
      (o : obj) (acc : list Call) :
  fold_left
    (fun (a : obj * list Call) (t : Touch) =>
       (obj_set (fst a) (identifier t) (touchPoint h t),
        if b then snd a ++ [CallPress (touchPoint h t)] else snd a))
    l (o, acc)
  = (updateTouches h o l,
     acc ++ (if b then map (fun t => CallPress (touchPoint h t)) l else [])).
Proof.
  revert o acc. induction l as [| t l IH]; intros o acc.
  - simpl. destruct b; rewrite app_nil_r; reflexivity.
  - simpl. rewrite IH. unfold updateTouches. simpl.
    destruct b; [rewrite <- app_assoc |]; reflexivity.
Qed.

Lemma onTouchStart_stores (h : Host) (c : Controller) (evt : TouchEvent) :
  exists calls,
    onTouchStart h c evt
    = Normal (set_touches c (updateTouches h (touches c) evt)) calls.
Proof.
  unfold onTouchStart.
  rewrite (onTouchStart_fold h (Nat.eqb (length evt) 1 && press c)).
  eauto.
Qed.

(** X15: [onTouchStart] stores every changed touch and never throws; it
    calls [press], with the position of the touch, exactly when the event
    carries a single changed touch and [press] is registered. *)
Theorem onTouchStart_outcome (h : Host) (c : Controller) (evt : TouchEvent) :
  onTouchStart h c evt
  = Normal (set_touches c (updateTouches h (touches c) evt))
           (match evt with
            | [t] => if press c then [CallPress (touchPoint h t)] else []
            | _ => []
            end).
Proof.
  unfold onTouchStart.
  rewrite (onTouchStart_fold h (Nat.eqb (length evt) 1 && press c)).
  destruct evt as [| t [| t' evt]]; simpl.
  - reflexivity.
  - destruct (press c); reflexivity.
  - reflexivity.
Qed.

(** X16: after [onTouchStart], looking up an identifier gives the position
    of the last changed touch that carries it, and what was stored before
    if no changed touch carries it. *)
Theorem onTouchStart_lookup
        (h : Host) (c : Controller) (evt : TouchEvent) (k : N) :
  obj_get (touches (outcome_controller (onTouchStart h c evt))) k
  = match lastTouch evt k with
    | Some t => Some (touchPoint h t)
    | None => obj_get (touches c) k
    end.
Proof.
  destruct (onTouchStart_stores h c evt) as [calls ->].
  cbn [outcome_controller set_touches touches].
  apply updateTouches_get.
Qed.

Lemma delete_fold_get (evt : TouchEvent) (o : obj) (k : N) :
  keys_ascending o ->
  obj_get (fold_left (fun o t => obj_delete o (identifier t)) evt o) k
  = if changed evt k then None else obj_get o k.
Proof.
  revert o. induction evt as [| t evt IH]; intros o H.
  - reflexivity.
  - simpl. rewrite IH by (apply keys_ascending_delete, H).
    destruct (N.eqb_spec (identifier t) k) as [-> | Hne]; simpl.
    + rewrite obj_get_delete_same by exact H.
      destruct (changed evt k); reflexivity.
    + rewrite obj_get_delete_other by congruence. reflexivity.
Qed.

Lemma delete_fold_ascending (evt : TouchEvent) (o : obj) :
  keys_ascending o ->
  keys_ascending (fold_left (fun o t => obj_delete o (identifier t)) evt o).
Proof.
  revert o. induction evt as [| t evt IH]; intros o H.
  - exact H.
  - simpl. apply IH, keys_ascending_delete, H.
Qed.

(** X17: after [onTouchEnd], no ended identifier is tracked any more and
    every other identifier keeps its position. *)
Theorem onTouchEnd_lookup (c : Controller) (evt : TouchEvent) (k : N) :
  keys_ascending (touches c) ->
  obj_get (touches (outcome_controller (onTouchEnd c evt))) k
  = if changed evt k then None else obj_get (touches c) k.
Proof.
  intros H. unfold onTouchEnd.
  cbn [outcome_controller set_touches touches].
  apply delete_fold_get, H.
Qed.

Lemma two_fingers_ascending : keys_ascending (touches two_fingers).
Proof. simpl. repeat split. Qed.

Lemma onTouchEnd_lookup_witness :
  obj_get (touches (outcome_controller
                      (onTouchEnd two_fingers [mkTouch 0 0 0]))) 0
  = if changed [mkTouch 0 0 0] 0 then None
    else obj_get (touches two_fingers) 0.
Proof.
  apply (onTouchEnd_lookup two_fingers [mkTouch 0 0 0] 0 two_fingers_ascending).
Defined.

Lemma set_touches_same (c : Controller) : set_touches c (touches c) = c.
Proof. destruct c; reflexivity. Qed.

(** X18: [onTouchEnd] for identifiers that are not tracked changes nothing
    and calls nothing. *)
Theorem onTouchEnd_untracked (c : Controller) (evt : TouchEvent) :
  (forall t, In t evt -> obj_has (touches c) (identifier t) = false) ->
  onTouchEnd c evt = Normal c [].
Proof.
  intros H. unfold onTouchEnd.
  assert (E : fold_left (fun o t => obj_delete o (identifier t)) evt (touches c)
              = touches c).
  { revert H. generalize (touches c) as o.
    induction evt as [| t evt IH]; intros o H.
    - reflexivity.
    - simpl. rewrite obj_delete_absent by (apply H; left; reflexivity).
      apply IH. intros t' Hin. apply H. right. exact Hin. }
  rewrite E, set_touches_same. reflexivity.
Qed.

Lemma onTouchEnd_untracked_witness :
  onTouchEnd two_fingers [mkTouch 7 1 2] = Normal two_fingers [].
Proof.
  apply (onTouchEnd_untracked two_fingers [mkTouch 7 1 2]).
  intros t [<- | []]. reflexivity.
Defined.

(** X19: a [touchstart] of identifiers that were not tracked, followed by
    the [touchend] of the same touches, gives back the controller as it
    was. *)
Theorem touch_start_end_round_trip
        (h : Host) (c : Controller) (evt : TouchEvent) :
  keys_ascending (touches c) ->
  (forall t, In t evt -> obj_has (touches c) (identifier t) = false) ->
  outcome_controller
    (onTouchEnd (outcome_controller (onTouchStart h c evt)) evt) = c.
Proof.
  intros Ha Hf. destruct (onTouchStart_stores h c evt) as [calls ->].
  unfold onTouchEnd. cbn [outcome_controller set_touches touches mousemove
    press wheel prevMouse curMouse twoFingerDrag pinch].
  assert (E : fold_left (fun o t => obj_delete o (identifier t)) evt
                        (updateTouches h (touches c) evt)
              = touches c).
  { apply obj_ext.
    - apply delete_fold_ascending, updateTouches_ascending, Ha.
    - exact Ha.
    - intros k.
      rewrite delete_fold_get by (apply updateTouches_ascending, Ha).
      destruct (changed evt k) eqn:Ec.
      + destruct (changed_true_In evt k Ec) as (t & Hin & <-).
        symmetry. apply obj_has_false_get, Hf, Hin.
      + rewrite updateTouches_get, (changed_false_lastTouch evt k Ec).
        reflexivity. }
  rewrite E. destruct c; reflexivity.
Qed.

Lemma touch_start_end_round_trip_witness :
  outcome_controller
    (onTouchEnd
       (outcome_controller
          (onTouchStart (host false) two_fingers [mkTouch 5 1 2; mkTouch 3 4 5]))
       [mkTouch 5 1 2; mkTouch 3 4 5])
  = two_fingers.
Proof.
  apply (touch_start_end_round_trip (host false) two_fingers
           [mkTouch 5 1 2; mkTouch 3 4 5] two_fingers_ascending).
  intros t [<- | [<- | []]]; reflexivity.
Defined.

(** ** Touch move *)

(** X20: with one tracked touch and [mousemove] registered, two successive
    moves of that touch call [mousemove] with the stored position and the
    new one, then with the new one and the next: the positions chain, and
    the handler does not depend on whether [t] resolves. *)
Theorem single_touch_moves_chain
        (h : Host) (c : Controller) (k : N) (p : point) (x1 y1 x2 y2 : R) :
  touches c = [(k, p)] -> mousemove c = true ->
  let q1 := Vec2 (x1 - left h) (y1 - top h) in
  let q2 := Vec2 (x2 - left h) (y2 - top h) in
  let r1 := onTouchMove h c [mkTouch k x1 y1] in
  let r2 := onTouchMove h (outcome_controller r1) [mkTouch k x2 y2] in
  r1 = Normal (set_touches c [(k, q1)]) [CallMousemove (Some p) q1]
  /\ r2 = Normal (set_touches c [(k, q2)]) [CallMousemove (Some q1) q2].
Proof.
  intros Ht Hm q1 q2 r1 r2.
  assert (E1 : r1 = Normal (set_touches c [(k, q1)])
                           [CallMousemove (Some p) q1]).
  { unfold r1, onTouchMove. rewrite Ht, Hm. simpl.
    unfold updateTouches, touchPoint. simpl. rewrite N.eqb_refl. reflexivity. }
  split; [exact E1 |].
  unfold r2. rewrite E1. unfold onTouchMove.
  cbn [outcome_controller set_touches touches mousemove].
  rewrite Hm. simpl.
  unfold updateTouches, touchPoint. simpl. rewrite N.eqb_refl. reflexivity.
Qed.

Lemma single_touch_moves_chain_witness :
  onTouchMove (host false) (set_touches two_fingers [(4%N, Vec2 1 1)])
              [mkTouch 4 5 6]
  = Normal (set_touches (set_touches two_fingers [(4%N, Vec2 1 1)])
                        [(4%N, Vec2 (5 - left (host false))
                                    (6 - top (host false)))])
           [CallMousemove (Some (Vec2 1 1))
                          (Vec2 (5 - left (host false)) (6 - top (host false)))].
Proof.
  apply (single_touch_moves_chain (host false)
           (set_touches two_fingers [(4%N, Vec2 1 1)]) 4 (Vec2 1 1) 5 6 5 6);
    reflexivity.
Defined.

(** X21: with one tracked touch, a move of a touch that is not the tracked
    one calls [mousemove] with [undefined] as the previous position, and
    leaves two touches tracked. *)
Theorem single_touch_stray_move
        (h : Host) (c : Controller) (k : N) (p : point) (t : Touch) :
  touches c = [(k, p)] -> mousemove c = true -> identifier t <> k ->
  outcome_calls (onTouchMove h c [t]) = [CallMousemove None (touchPoint h t)]
  /\ length (touches (outcome_controller (onTouchMove h c [t]))) = 2%nat.
Proof.
  intros Ht Hm Hk. unfold onTouchMove. rewrite Ht, Hm.
  apply N.eqb_neq in Hk.
  cbn [length Nat.eqb outcome_calls outcome_controller set_touches touches
       obj_get updateTouches fold_left obj_set].
  rewrite Hk. split; [reflexivity |].
  destruct (N.ltb (identifier t) k); reflexivity.
Qed.

Lemma single_touch_stray_move_witness :
  outcome_calls
    (onTouchMove (host false) (set_touches two_fingers [(4%N, Vec2 1 1)])
                 [mkTouch 9 5 6])
  = [CallMousemove None (touchPoint (host false) (mkTouch 9 5 6))].
Proof.
  apply (single_touch_stray_move (host false)
           (set_touches two_fingers [(4%N, Vec2 1 1)]) 4 (Vec2 1 1)
           (mkTouch 9 5 6)); [reflexivity | reflexivity | discriminate].
Defined.

Lemma obj_has_set_same (o : obj) (k : N) (v : point) :
  obj_has (obj_set o k v) k = true.
Proof. apply obj_has_get. exists v. apply obj_get_set_same. Qed.

Lemma obj_has_set_mono (o : obj) (k k' : N) (v : point) :
  obj_has o k' = true -> obj_has (obj_set o k v) k' = true.
Proof.
  intros H. destruct (N.eq_dec k' k) as [-> | Hne].
  - apply obj_has_set_same.
  - apply obj_has_get. rewrite obj_get_set_other by exact Hne.
    apply obj_has_get, H.
Qed.

Lemma obj_two_keys (o : obj) (k1 k2 : N) :
  obj_has o k1 = true -> obj_has o k2 = true -> k1 <> k2 ->
  (2 <= length o)%nat.
Proof.
  destruct o as [| [a va] [| [b vb] o]]; simpl; intros H1 H2 Hne.
  - discriminate.
  - destruct (N.eqb_spec k1 a); [| discriminate].
    destruct (N.eqb_spec k2 a); [| discriminate]. congruence.
  - lia.
Qed.

(** The loop [for (t in this.touches)]: the old positions are collected in
    order, and every visited key ends up in [curTouches]. *)
Lemma forin_fold (l : obj) (cur : obj) (old : list point) :
  let r :=
    fold_left
      (fun (acc : obj * list point) (kv : N * point) =>
         ((if obj_has (fst acc) (fst kv) then fst acc
           else obj_set (fst acc) (fst kv) (snd kv)),
          snd acc ++ [snd kv]))
      l (cur, old) in
  snd r = old ++ map snd l
  /\ (forall k, obj_has cur k = true \/ In k (map fst l) ->
                obj_has (fst r) k = true).
Proof.
  revert cur old. induction l as [| [k0 v0] l IH]; intros cur old; simpl.
  - split; [rewrite app_nil_r; reflexivity |].
    intros k [H | []]. exact H.
  - destruct (IH (if obj_has cur k0 then cur else obj_set cur k0 v0)
                 (old ++ [v0])) as [IH1 IH2].
    split.
    + rewrite IH1, <- app_assoc. reflexivity.
    + intros k Hk. apply IH2.
      destruct Hk as [Hk | [Hk | Hk]].
      * left. destruct (obj_has cur k0); [exact Hk |].
        apply obj_has_set_mono, Hk.
      * subst k0. left. destruct (obj_has cur k) eqn:E; [exact E |].
        apply obj_has_set_same.
      * right. exact Hk.
Qed.

Lemma nth_error_length_some {A : Type} (l : list A) (n : nat) :
  (n < length l)%nat -> exists x, nth_error l n = Some x.
Proof.
  intros H. destruct (nth_error l n) eqn:E; [eauto |].
  apply nth_error_None in E. lia.
Qed.

(** X22: when an [onTouchMove] returns and when it throws.  It returns, with
    every changed position stored, exactly in two cases: one touch is
    tracked and either [mousemove] is not registered or the event has a
    changed touch; or two or more touches are tracked and [t] resolves.
    In every other case it throws. *)
Theorem onTouchMove_returns (h : Host) (c : Controller) (evt : TouchEvent) :
  keys_ascending (touches c) ->
  (exists calls,
      onTouchMove h c evt
      = Normal (set_touches c (updateTouches h (touches c) evt)) calls)
  <-> (length (touches c) = 1%nat /\ (mousemove c = false \/ evt <> []))
      \/ ((2 <= length (touches c))%nat /\ t_resolvable h = true).
Proof.
  intros Ha. unfold onTouchMove.
  destruct (touches c) as [| [k1 v1] [| [k2 v2] o]] eqn:Et.
  - simpl. split.
    + intros [calls H]. discriminate.
    + intros [[H _] | [H _]]; simpl in H; lia.
  - simpl. destruct (mousemove c).
    + destruct evt as [| t evt].
      * split.
        -- intros [calls H]. discriminate.
        -- intros [[_ [H | H]] | [H _]];
             [discriminate | contradiction | simpl in H; lia].
      * split; [| eauto]. intros _. left. split; [reflexivity |].
        right. discriminate.
    + split; [| eauto]. intros _. left. auto.
  - cbn [length Nat.eqb].
    destruct (t_resolvable h).
    + split; [intros _; right; split; [simpl; lia | reflexivity] | intros _].
      match goal with
      | |- context [fold_left ?f ?l ?a] =>
          pose proof (forin_fold l (fst a) (snd a)) as Hf;
          cbv zeta in Hf; cbn [fst snd] in Hf;
          destruct (fold_left f l a) as [cur old] eqn:Ef
      end.
      destruct Hf as [Hold Hcur]. cbn [fst snd] in Hold, Hcur.
      assert (Hl : (2 <= length cur)%nat).
      { apply (obj_two_keys cur k1 k2).
        - apply Hcur. right. simpl. auto.
        - apply Hcur. right. simpl. auto.
        - simpl in Ha. destruct Ha as [Hlt _]. lia. }
      destruct (nth_error_length_some (map snd cur) 0) as [n0 E0];
        [rewrite length_map; lia |].
      destruct (nth_error_length_some (map snd cur) 1) as [n1 E1];
        [rewrite length_map; lia |].
      rewrite E0, E1, Hold. simpl. eauto.
    + split.
      * intros [calls H]. discriminate.
      * intros [[H _] | [_ H]]; [simpl in H; lia | discriminate].
Qed.

Lemma onTouchMove_returns_witness :
  exists calls,
    onTouchMove (host true) two_fingers pinch_move
    = Normal (set_touches two_fingers
                (updateTouches (host true) (touches two_fingers) pinch_move))
             calls.
Proof.
  apply (proj2 (onTouchMove_returns (host true) two_fingers pinch_move
                  two_fingers_ascending)).
  right. split; [simpl; lia | reflexivity].
Defined.

(** ** More about the classification *)

Lemma pinchTest_zero_l (a : R) : pinchTest 0 a = false.
Proof.
  destruct (pinchTest 0 a) eqn:E; [| reflexivity].
  apply pinchTest_true in E. destruct E as (_ & _ & H). exfalso. lra.
Qed.

Lemma panTest_zero_l (a : R) : panTest 0 a = false.
Proof.
  destruct (panTest 0 a) eqn:E; [| reflexivity].
  apply panTest_true in E. destruct E as (_ & _ & H). exfalso. lra.
Qed.

Lemma motionDir_resting (p : point) :
  vec2_normalize (motionVector p p) = Vec2 0 0.
Proof.
  apply vec2_normalize_zero; unfold motionVector; cbn [v2_0 v2_1]; lra.
Qed.

Lemma vec2_dot_zero_r (a : vec2) : vec2_dot a (Vec2 0 0) = 0.
Proof. unfold vec2_dot; cbn [v2_0 v2_1]. ring. Qed.

(** X23: when one of the two fingers does not move, neither the pinch nor
    the drag callback is called, wherever the other finger goes. *)
Theorem classify_resting_finger (c : Controller) (old0 old1 new : point) :
  classify c old0 old1 new old1 = [] /\ classify c old0 old1 old0 new = [].
Proof.
  split; apply classify_none.
  - unfold pinchMotion at 2. rewrite motionDir_resting, vec2_dot_zero_r.
    apply pinchTest_zero_r.
  - unfold panMotion at 2. rewrite motionDir_resting, vec2_dot_zero_r.
    apply panTest_zero_r.
  - unfold pinchMotion at 1. rewrite motionDir_resting, vec2_dot_zero_r.
    apply pinchTest_zero_l.
  - unfold panMotion at 1. rewrite motionDir_resting, vec2_dot_zero_r.
    apply panTest_zero_l.
Qed.

(** X24: the classification depends on the positions through their
    differences only: shifting the four positions by the same offset, as
    a canvas placed elsewhere on the page does, gives the same calls. *)
Theorem classify_shift (c : Controller) (old0 old1 new0 new1 : point)
        (dx dy : R) :
  let shift := fun p : point => Vec2 (v2_0 p + dx) (v2_1 p + dy) in
  classify c (shift old0) (shift old1) (shift new0) (shift new1)
  = classify c old0 old1 new0 new1.
Proof.
  intros shift.
  assert (M : forall a b, motionVector (shift a) (shift b) = motionVector a b).
  { intros a b. unfold motionVector, shift; cbn [v2_0 v2_1]. f_equal; ring. }
  assert (A : pinchAxis (shift old0) (shift old1) = pinchAxis old0 old1).
  { unfold pinchAxis, shift; cbn [v2_0 v2_1]. f_equal. f_equal; ring. }
  assert (D : forall a b, pointDist (shift a) (shift b) = pointDist a b).
  { intros a b. unfold pointDist, Js.pow2, shift; cbn [v2_0 v2_1].
    f_equal. ring. }
  rewrite !classify_unfold.
  unfold pinchMotion, panMotion, panAxis. rewrite !M, A, !D. reflexivity.
Qed.

Lemma bool_eq_of_iff (a b : bool) : (a = true <-> b = true) -> a = b.
Proof. destruct a, b; intuition congruence. Qed.

Lemma pinchTest_swap_opp (a b : R) : pinchTest (- b) (- a) = pinchTest a b.
Proof.
  apply bool_eq_of_iff. rewrite !pinchTest_true, !Rabs_Ropp.
  split; intros (H1 & H2 & H3); repeat split; try assumption; nra.
Qed.

Lemma panTest_swap (a b : R) : panTest b a = panTest a b.
Proof.
  apply bool_eq_of_iff. rewrite !panTest_true.
  split; intros (H1 & H2 & H3); repeat split; try assumption; nra.
Qed.

Lemma vec2_normalize_opp (a b : R) :
  vec2_normalize (Vec2 (- a) (- b)) = vec2_negate (vec2_normalize (Vec2 a b)).
Proof.
  unfold vec2_normalize, vec2_negate; cbn [v2_0 v2_1].
  replace (- a * - a + - b * - b) with (a * a + b * b) by ring.
  destruct (Js.gtb (sqrt (a * a + b * b)) EPSILON) eqn:E; cbn [v2_0 v2_1].
  - apply JsFacts.gtb_true in E. unfold EPSILON in E. f_equal; field; lra.
  - f_equal; ring.
Qed.

Lemma pinchAxis_swap (old0 old1 : point) :
  pinchAxis old1 old0 = vec2_negate (pinchAxis old0 old1).
Proof.
  unfold pinchAxis. rewrite <- vec2_normalize_opp. f_equal. f_equal; ring.
Qed.

Lemma vec2_dot_negate_l (a b : vec2) :
  vec2_dot (vec2_negate a) b = - vec2_dot a b.
Proof. unfold vec2_dot, vec2_negate; cbn [v2_0 v2_1]. ring. Qed.

Lemma vec2_lerp_half_swap (a b : vec2) :
  vec2_lerp b a (1 / 2) = vec2_lerp a b (1 / 2).
Proof. unfold vec2_lerp. f_equal; field. Qed.

Lemma pointDist_swap (a b : point) : pointDist b a = pointDist a b.
Proof. unfold pointDist, Js.pow2. f_equal. ring. Qed.

(** X25: the classification does not depend on which of the two fingers
    comes first. *)
Theorem classify_swap (c : Controller) (old0 old1 new0 new1 : point) :
  classify c old1 old0 new1 new0 = classify c old0 old1 new0 new1.
Proof.
  rewrite !classify_unfold. unfold pinchMotion, panMotion, panAxis.
  rewrite pinchAxis_swap, !vec2_dot_negate_l, pinchTest_swap_opp.
  rewrite (vec2_lerp_half_swap (motionVector old0 new0)
                               (motionVector old1 new1)).
  rewrite (panTest_swap
             (vec2_dot _ (vec2_normalize (motionVector old0 new0)))).
  rewrite (pointDist_swap new0 new1), (pointDist_swap old0 old1).
  reflexivity.
Qed.

(** X26: [pointDist] is symmetric, never negative, and zero exactly between
    a point and itself. *)
Theorem pointDist_metric (a b : point) :
  pointDist a b = pointDist b a
  /\ 0 <= pointDist a b
  /\ (pointDist a b = 0 <-> a = b).
Proof.
  split; [apply pointDist_swap |]. split; [apply sqrt_pos |].
  unfold pointDist, Js.pow2. destruct a as [a0 a1], b as [b0 b1].
  cbn [v2_0 v2_1].
  pose proof (Rle_0_sqr (b0 - a0)) as S0.
  pose proof (Rle_0_sqr (b1 - a1)) as S1. unfold Rsqr in S0, S1.
  split.
  - intros H. apply sqrt_eq_0 in H; [| lra].
    assert (E0 : (b0 - a0) * (b0 - a0) = 0) by lra.
    assert (E1 : (b1 - a1) * (b1 - a1) = 0) by lra.
    apply Rmult_integral in E0. apply Rmult_integral in E1.
    f_equal; lra.
  - intros E. injection E as -> ->.
    replace ((b0 - b0) * (b0 - b0) + (b1 - b1) * (b1 - b1)) with 0 by ring.
    apply sqrt_0.
Qed.

(** ** The event queue *)

Lemma dispatch_normal (h : Host) (c : Controller) (e : DomEvent) :
  isTouchMove e = false -> exists c' cs, dispatch h c e = Normal c' cs.
Proof.
  destruct e; simpl; intros H; try discriminate;
    try (unfold onMouseMove, onMouseDown, onMouseWheel, onTouchEnd; eauto).
  destruct (onTouchStart_stores h c changedTouches) as [calls ->]. eauto.
Qed.

Lemma processLoop_normal (h : Host) (q : list DomEvent) (c : Controller)
      (calls : list Call) :
  forallb (fun e => negb (isTouchMove e)) q = true ->
  exists c' calls', processLoop h c q calls = Normal c' calls'.
Proof.
  revert c calls. induction q as [| e q IH]; intros c calls H; simpl.
  - eauto.
  - simpl in H. apply andb_true_iff in H. destruct H as [He Hq].
    apply negb_true_iff in He.
    destruct (dispatch_normal h c e He) as (c' & cs & ->).
    apply IH, Hq.
Qed.

(** X27: a pass of [processEvents] over a queue without [touchmove] events
    throws nothing and leaves the queue empty. *)
Theorem processEvents_empties_queue (h : Host) (s : Queued) :
  forallb (fun e => negb (isTouchMove e)) (registeredEvents s) = true ->
  exists c' calls, processEvents h s = (mkQueued c' [], calls, None).
Proof.
  intros H. unfold processEvents.
  destruct (processLoop_normal h (registeredEvents s) (controller s) [] H)
    as (c' & calls & ->).
  eauto.
Qed.

Lemma processEvents_empties_queue_witness :
  exists c' calls,
    processEvents (host false)
                  (mkQueued two_fingers
                            [WheelEvent 3; TouchEndEvent [mkTouch 0 0 0]])
    = (mkQueued c' [], calls, None).
Proof.
  apply (processEvents_empties_queue (host false)
           (mkQueued two_fingers [WheelEvent 3; TouchEndEvent [mkTouch 0 0 0]])).
  reflexivity.
Defined.

Lemma processLoop_app (h : Host) (q1 q2 : list DomEvent) (c : Controller)
      (calls : list Call) :
  processLoop h c (q1 ++ q2) calls
  = match processLoop h c q1 calls with
    | Normal c' cs => processLoop h c' q2 cs
    | Thrown err c' cs => Thrown err c' cs
    end.
Proof.
  revert c calls. induction q1 as [| e q1 IH]; intros c calls; simpl.
  - reflexivity.
  - destruct (dispatch h c e); [apply IH | reflexivity].
Qed.

Lemma processLoop_calls (h : Host) (q : list DomEvent) (c : Controller)
      (calls : list Call) :
  processLoop h c q calls
  = match processLoop h c q [] with
    | Normal c' cs => Normal c' (calls ++ cs)
    | Thrown err c' cs => Thrown err c' (calls ++ cs)
    end.
Proof.
  revert c calls. induction q as [| e q IH]; intros c calls; simpl.
  - rewrite app_nil_r. reflexivity.
  - destruct (dispatch h c e) as [c' cs | err c' cs].
    + rewrite (IH c' (calls ++ cs)), (IH c' cs).
      destruct (processLoop h c' q []); rewrite app_assoc; reflexivity.
    + reflexivity.
Qed.

(** X28: events are handled in the order of the queue, and a pass that
    does not throw can be split: handling [q1 ++ q2] in one pass calls
    what a pass over [q1] calls, then what a pass over [q2] started from
    the controller the first pass left calls, and ends as that second
    pass ends. *)
Theorem processEvents_split (h : Host) (c : Controller)
        (q1 q2 : list DomEvent) (s1 : Queued) (calls1 : list Call) :
  processEvents h (mkQueued c q1) = (s1, calls1, None) ->
  processEvents h (mkQueued c (q1 ++ q2))
  = match processEvents h (mkQueued (controller s1) q2) with
    | (s2, calls2, None) => (mkQueued (controller s2) [], calls1 ++ calls2, None)
    | (s2, calls2, Some err) =>
        (mkQueued (controller s2) (q1 ++ q2), calls1 ++ calls2, Some err)
    end.
Proof.
  unfold processEvents. cbn [controller registeredEvents].
  rewrite processLoop_app.
  destruct (processLoop h c q1 []) as [c1 cs1 | err c1 cs1];
    [| discriminate].
  intros E. injection E as <- <-. cbn [controller].
  rewrite (processLoop_calls h q2 c1 cs1).
  destruct (processLoop h c1 q2 []); reflexivity.
Qed.

Lemma processEvents_split_witness :
  processEvents (host false)
                (mkQueued two_fingers ([WheelEvent 3] ++ [WheelEvent 4]))
  = match processEvents (host false) (mkQueued two_fingers [WheelEvent 4]) with
    | (s2, calls2, None) =>
        (mkQueued (controller s2) [], [CallWheel (- 3)] ++ calls2, None)
    | (s2, calls2, Some err) =>
        (mkQueued (controller s2) ([WheelEvent 3] ++ [WheelEvent 4]),
         [CallWheel (- 3)] ++ calls2, Some err)
    end.
Proof.
  apply (processEvents_split (host false) two_fingers [WheelEvent 3]
           [WheelEvent 4] (mkQueued two_fingers []) [CallWheel (- 3)]).
  reflexivity.
Defined.

Lemma dispatch_wheel (h : Host) (c : Controller) (e : DomEvent) :
  wheel (outcome_controller (dispatch h c e)) = wheel c.
Proof.
  destruct e as [x y | x y | dy | l | l | l | l]; simpl; try reflexivity.
  - destruct (onTouchStart_stores h c l) as [calls ->]. reflexivity.
  - destruct (onTouchMove h c l) as [c' cs | err c' cs] eqn:E.
    + apply onTouchMove_normal_updates in E. subst c'. reflexivity.
    + apply onTouchMove_thrown_unchanged in E. destruct E as [-> _].
      reflexivity.
Qed.

Lemma processLoop_wheel (h : Host) (q : list DomEvent) (c : Controller)
      (calls : list Call) :
  wheel (outcome_controller (processLoop h c q calls)) = wheel c.
Proof.
  revert c calls. induction q as [| e q IH]; intros c calls; simpl.
  - reflexivity.
  - pose proof (dispatch_wheel h c e) as Hw.
    destruct (dispatch h c e) as [c' cs | err c' cs]; simpl in Hw.
    + rewrite IH. exact Hw.
    + exact Hw.
Qed.

Lemma processLoop_wheel_first (h : Host) (c : Controller) (deltaY : R)
      (q : list DomEvent) :
  wheel c = true ->
  processLoop h c (WheelEvent deltaY :: q) []
  = match processLoop h c q [] with
    | Normal c' cs => Normal c' (CallWheel (- deltaY) :: cs)
    | Thrown err c' cs => Thrown err c' (CallWheel (- deltaY) :: cs)
    end.
Proof.
  intros Hw.
  change (processLoop h c (WheelEvent deltaY :: q) [])
    with (processLoop h c q
            ([] ++ (if wheel c then [CallWheel (- deltaY)] else []))).
  rewrite Hw. cbn [app]. rewrite processLoop_calls.
  destruct (processLoop h c q []); reflexivity.
Qed.

(** X29: a handler that throws leaves the whole queue in place, so the next
    pass handles again the events that were already handled: when a queue
    that starts with a wheel event makes [processEvents] throw, the wheel
    callback has been called with the negated [deltaY] and is called with
    it again by the following pass. *)
Theorem processEvents_replays_after_throw
        (h : Host) (c : Controller) (deltaY : R) (q : list DomEvent)
        (s' : Queued) (calls : list Call) (err : Error) :
  wheel c = true ->
  processEvents h (mkQueued c (WheelEvent deltaY :: q)) = (s', calls, Some err) ->
  registeredEvents s' = WheelEvent deltaY :: q
  /\ (exists cs, calls = CallWheel (- deltaY) :: cs)
  /\ (forall h', exists s'' cs' r,
         processEvents h' s' = (s'', CallWheel (- deltaY) :: cs', r)).
Proof.
  intros Hw. unfold processEvents at 1. cbn [controller registeredEvents].
  pose proof (processLoop_wheel h (WheelEvent deltaY :: q) c []) as Hp.
  rewrite (processLoop_wheel_first h c deltaY q Hw) in Hp |- *.
  destruct (processLoop h c q []) as [c1 cs1 | e1 c1 cs1]; [discriminate |].
  intros E. injection E as <- <- <-. cbn [outcome_controller] in Hp.
  split; [reflexivity |]. split; [eauto |].
  intros h'. unfold processEvents. cbn [controller registeredEvents].
  rewrite (processLoop_wheel_first h' c1 deltaY q)
    by (rewrite Hp; exact Hw).
  destruct (processLoop h' c1 q []); eauto.
Qed.

Lemma processEvents_replays_after_throw_witness :
  exists s'' cs' r,
    processEvents (host false)
      (mkQueued two_fingers [WheelEvent (-50); TouchMoveEvent pinch_move])
    = (s'', CallWheel (- -50) :: cs', r).
Proof.
  apply (processEvents_replays_after_throw (host false) two_fingers (-50)
           [TouchMoveEvent pinch_move]
           (mkQueued two_fingers
                     [WheelEvent (-50); TouchMoveEvent pinch_move])
           [CallWheel (- -50)] ReferenceError);
    reflexivity.
Defined.

(** ** Mouse events *)

(** X30: [onMouseMove] hands the callback the position of the previous
    [mousemove] and the new one; a [mousedown] in between moves
    [curMouse] but not [prevMouse], so the move after it still starts
    from the last move. *)
Theorem mouse_moves_chain (h : Host) (c : Controller)
        (x1 y1 xd yd x2 y2 : R) :
  mousemove c = true ->
  let p1 := Vec2 (x1 - left h) (y1 - top h) in
  let pd := Vec2 (xd - left h) (yd - top h) in
  let p2 := Vec2 (x2 - left h) (y2 - top h) in
  processLoop h c [MouseMoveEvent x1 y1; MouseDownEvent xd yd;
                   MouseMoveEvent x2 y2] []
  = Normal (mkController (mousemove c) (press c) (wheel c) p2 p2 (touches c)
                         (twoFingerDrag c) (pinch c))
           ([CallMousemove (Some (prevMouse c)) p1]
            ++ (if press c then [CallPress pd] else [])
            ++ [CallMousemove (Some p1) p2]).
Proof.
  intros Hm p1 pd p2. simpl. unfold onMouseMove, onMouseDown. simpl.
  rewrite Hm. destruct (press c); reflexivity.
Qed.

Lemma mouse_moves_chain_witness :
  outcome_calls
    (processLoop (host false) two_fingers
                 [MouseMoveEvent 1 2; MouseDownEvent 3 4; MouseMoveEvent 5 6] [])
  = [CallMousemove (Some (Vec2 0 0)) (Vec2 (1 - 0) (2 - 0));
     CallPress (Vec2 (3 - 0) (4 - 0));
     CallMousemove (Some (Vec2 (1 - 0) (2 - 0))) (Vec2 (5 - 0) (6 - 0))].
Proof.
  rewrite (mouse_moves_chain (host false) two_fingers 1 2 3 4 5 6 eq_refl).
  reflexivity.
Defined.

(** ** The view matrix as a map *)

(** X14: the view matrix of a well-formed camera takes a world point [p] to
    [R (p - pivot) + t], where [R] is the matrix of [rotation] and [t] the
    translation column of [translation]; it takes [eyePos] to the origin
    of view space. *)
Theorem view_matrix_action (c : ArcballCamera) (p0 p1 p2 : R) :
  well_formed c ->
  vec4_transformMat4 (Vec4 p0 p1 p2 1) (camera c)
  = (let r := vec4_transformMat4
                (Vec4 (p0 - v3_0 (pivot c)) (p1 - v3_1 (pivot c))
                      (p2 - v3_2 (pivot c)) 0)
                (mat4_fromQuat (rotation c)) in
     Vec4 (v4_0 r + e12 (translation c)) (v4_1 r + e13 (translation c))
          (v4_2 r + e14 (translation c)) 1)
  /\ vec4_transformMat4
       (Vec4 (v3_0 (eyePos c)) (v3_1 (eyePos c)) (v3_2 (eyePos c)) 1)
       (camera c)
     = Vec4 0 0 0 1.
Proof.
  intros H. split; [| apply eyePos_in_view_space, H].
  rewrite (camera_apply_point c p0 p1 p2 H).
  unfold pivot; cbn [v3_0 v3_1 v3_2].
  replace (p0 - - e12 (centerTranslation c))
    with (p0 + e12 (centerTranslation c)) by ring.
  replace (p1 - - e13 (centerTranslation c))
    with (p1 + e13 (centerTranslation c)) by ring.
  replace (p2 - - e14 (centerTranslation c))
    with (p2 + e14 (centerTranslation c)) by ring.
  reflexivity.
Qed.

Lemma view_matrix_action_witness :
  vec4_transformMat4
    (Vec4 (v3_0 (eyePos camera0)) (v3_1 (eyePos camera0))
          (v3_2 (eyePos camera0)) 1)
    (camera camera0)
  = Vec4 0 0 0 1.
Proof.
  apply (proj2 (view_matrix_action camera0 0 0 0 camera0_well_formed)).
Defined.
